(** * SmartRepo: the indexing-and-search pipeline

    A shallow embedding of [core/repo_loader.py] and [core/explorer.py].

    - Python [str] is [string]; [bytes] is [list Byte.byte]; [int] is [Z]
      (or [nat] for lengths and loop indices); [float] is the IEEE binary64
      [float].
    - The vector collection is a finite map from ids to (document,
      metadata); every call made on it is logged in the explorer.
    - The store's ranking, the file system, the hosting APIs, the HTTP
      client, the clock and the embedding model are the oracles of the
      record [world].
    - A generator is a value of type [gen]: at every [yield], and before
      every read of the shared cancellation flag, the explorer object is in
      the hands of the outside, which may set the flag before the generator
      goes on.
    - [progress_callback] is left at its default, [None]. *)

From Stdlib Require Import ZArith Lia Floats.PrimFloat Strings.Ascii DecimalString.
From stdpp Require Import base strings list gmap.

Open Scope string_scope.
Set Warnings "-register-all,-clear-no-such-hyp".

(** ** Python strings *)

Module PyStr.

(** [sub in s] *)
Fixpoint contains (sub s : string) : bool :=
  String.prefix sub s ||
  match s with
  | EmptyString => false
  | String _ s' => contains sub s'
  end.

(** [s.endswith(suf)] *)
Fixpoint endswith (suf s : string) : bool :=
  String.eqb suf s ||
  match s with
  | EmptyString => false
  | String _ s' => endswith suf s'
  end.

Definition lower_ascii (c : ascii) : ascii :=
  let n := nat_of_ascii c in
  if (65 <=? n)%nat && (n <=? 90)%nat then ascii_of_nat (n + 32) else c.

(** [s.lower()], on ASCII letters *)
Fixpoint lower (s : string) : string :=
  match s with
  | EmptyString => EmptyString
  | String c s' => String (lower_ascii c) (lower s')
  end.

(** [s.split(sep)] for a one-character separator: never the empty list *)
Fixpoint split (sep : ascii) (s : string) : list string :=
  match s with
  | EmptyString => [EmptyString]
  | String c s' =>
      if Ascii.eqb c sep then EmptyString :: split sep s'
      else match split sep s' with
           | [] => [String c EmptyString]
           | w :: ws => String c w :: ws
           end
  end.

(** [sep.join(parts)] *)
Fixpoint join (sep : string) (parts : list string) : string :=
  match parts with
  | [] => EmptyString
  | [p] => p
  | p :: ps => p ++ sep ++ join sep ps
  end.

(** [s.replace(c, d)] for one-character [c] and [d] *)
Fixpoint replace (c d : ascii) (s : string) : string :=
  match s with
  | EmptyString => EmptyString
  | String a s' => String (if Ascii.eqb a c then d else a) (replace c d s')
  end.

(** [s[:n]] *)
Definition take (n : nat) (s : string) : string := String.substring 0 n s.

(** [str(n)] for a non-negative integer *)
Definition of_nat (n : nat) : string := NilZero.string_of_uint (Nat.to_uint n).

(** [x in xs] for a collection of strings *)
Definition mem (x : string) (xs : list string) : bool :=
  existsb (String.eqb x) xs.

(** [sep not in s] for a one-character [sep] *)
Fixpoint free_of (sep : ascii) (s : string) : bool :=
  match s with
  | EmptyString => true
  | String c s' => negb (Ascii.eqb c sep) && free_of sep s'
  end.

End PyStr.

(** ** pathlib.PurePosixPath, as far as [is_excluded] and the document
    builder use it *)

Module Pathlib.

Definition slash : ascii := "/"%char.
Definition dot : ascii := "."%char.

(** The path's components below the root: empty and ["."] segments are
    dropped when the path is parsed. *)
Definition segments (p : string) : list string :=
  List.filter (fun x => negb (String.eqb x EmptyString) && negb (String.eqb x "."))
    (PyStr.split slash p).

(** ["/"] for an absolute path, ["//"] for exactly two leading slashes. *)
Definition root (p : string) : string :=
  match p with
  | String "/" (String "/" (String "/" _)) => "/"
  | String "/" (String "/" _) => "//"
  | String "/" _ => "/"
  | _ => EmptyString
  end.

(** [Path(p).parts] *)
Definition parts (p : string) : list string :=
  match root p with
  | EmptyString => segments p
  | r => r :: segments p
  end.

(** [Path(p).as_posix()], which is [str(Path(p))] *)
Definition as_posix (p : string) : string :=
  match root p, segments p with
  | EmptyString, [] => "."
  | r, segs => r ++ PyStr.join "/" segs
  end.

(** [Path(p).name]: the final component, the empty string when there is
    none *)
Definition name (p : string) : string := List.last (segments p) EmptyString.

(** [s.rfind(c)]: the index of the last occurrence, [None] for Python's -1 *)
Fixpoint rfind (c : ascii) (s : string) : option nat :=
  match s with
  | EmptyString => None
  | String a s' =>
      match rfind c s' with
      | Some i => Some (S i)
      | None => if Ascii.eqb a c then Some 0%nat else None
      end
  end.

(** [Path(p).suffix]: [name[i:]] for [i = name.rfind('.')] when
    [0 < i < len(name) - 1], else the empty string *)
Definition suffix (p : string) : string :=
  let nm := name p in
  match rfind dot nm with
  | Some i =>
      if (0 <? i)%nat && (i <? String.length nm - 1)%nat
      then String.substring i (String.length nm - i) nm
      else EmptyString
  | None => EmptyString
  end.

End Pathlib.

(** ** The outside world *)

(** One entry of a repository file list: [{"path": ..., "size": ...}];
    the size may be [None]. *)
Record file_meta := { fm_path : string; fm_size : option Z }.

(** What [requests.get(url, stream=True)] gives: [iter_content] either
    hands over a chunk or raises. *)
Inductive chunk_event :=
| Chunk (data : list Byte.byte)
| StreamError.

Inductive http_response :=
| RequestFailed                       (* the request or [raise_for_status] raises *)
| Response (content_length : option string) (body : list chunk_event).

(** A directory tree as [os.scandir] shows it. *)
Inductive node :=
| File (name : string)
| Dir (name : string) (children : list node).

(** [os.stat]: the fields the indexer reads, and whether the mode is a
    directory's. *)
Record stat_result := { st_size : Z; st_mtime : float; st_isdir : bool }.

(** ** The vector store's data *)

(** The metadata mapping stored with every item. *)
Record metadata := {
  full_path : string;
  relative_path : string;
  is_dir : bool;
  size_bytes : option Z;
  modified_time : float;
  source_type : string;
  repo_url : option string
}.

(** A literal of the filter language. *)
Inductive lit :=
| LStr (s : string)
| LInt (z : Z)
| LBool (b : bool).

(** A field condition is a dict from field names to operator dicts:
    [{"relative_path": {"$contains": "foo"}}]. *)
Abbreviation cond := (gmap string (gmap string lit)).

(** A filter expression is a dict whose ["$and"] key, when present, holds a
    list of field conditions, and whose other keys are fields. *)
Record where_ := {
  and_ : option (list cond);
  fields : cond
}.

Definition empty_where : where_ := {| and_ := None; fields := ∅ |}.

(** [bool(d)] for a filter dict *)
Definition where_nonempty (d : where_) : bool :=
  match and_ d with
  | Some _ => true
  | None => negb (bool_decide (fields d = ∅))
  end.

(** The keyword arguments of [collection.query]. *)
Record query_params := {
  query_embeddings : list (list float);
  n_results : Z;
  where_filter : option where_
}.

(** The answer for the single query text: [results['ids'][0]],
    [results['distances'][0]] and [results['metadatas'][0]]. *)
Record query_result := {
  ids0 : list string;
  distances0 : list float;
  metadatas0 : list metadata
}.

Record world := {
  (* vector store: the ranking of the stored items *)
  chroma_query : gmap string (string * metadata) -> query_params -> query_result;
  (* clock: [datetime.now().timestamp()] when the named file is processed *)
  datetime_now : string -> float;
  (* local file system *)
  os_stat : string -> option stat_result;          (* [None]: FileNotFoundError *)
  scandir_tree : string -> option (list node);     (* [None]: cannot be scanned *)
  open_read : string -> option string;             (* text, undecodable bytes ignored *)
  os_path_relpath : string -> string -> string;
  (* hosting APIs and raw content endpoints *)
  _get_github_files : string -> string -> option (list file_meta) * option string * option string;
  _get_hf_files : string -> string -> option (list file_meta) * option string;
  GITHUB_TOKEN : option string;
  requests_get : string -> http_response;
  decode_utf8_ignore : list Byte.byte -> string;
  urljoin_quote : string -> string -> string;      (* [urljoin(base, quote(path))] *)
  (* embedding model *)
  encode : string -> list float
}.

(** ** core/repo_loader.py *)

Module RepoLoader.

Definition EXCLUDE_EXTENSIONS : list string :=
  [".lock"; ".log"; ".env"; ".so"; ".o"; ".a"; ".dll"; ".exe"; ".ipynb"; ".svg";
   ".png"; ".jpg"; ".jpeg"; ".gif"; ".webp"; ".ico"; ".woff"; ".woff2"; ".ttf";
   ".eot"; ".otf"].
Definition EXCLUDE_FILENAMES : list string := [".gitignore"; ".DS_Store"; ".gitattributes"].
Definition EXCLUDE_PATTERNS : list string :=
  ["__pycache__/"; ".git/"; "node_modules/"; "dist/"; "build/"; ".vscode/"; ".idea/"].

Definition is_excluded (filepath : string) : bool :=
  if PyStr.mem (PyStr.lower (Pathlib.name filepath)) EXCLUDE_FILENAMES
     || PyStr.mem (PyStr.lower (Pathlib.suffix filepath)) EXCLUDE_EXTENSIONS
  then true
  else
    let normalized_path := Pathlib.as_posix filepath ++ "/" in
    if existsb (fun pattern => PyStr.contains pattern normalized_path) EXCLUDE_PATTERNS
    then true
    else false.

(** Python truthiness of an optional string *)
Definition truthy (o : option string) : bool :=
  match o with
  | Some s => negb (String.eqb s EmptyString)
  | None => false
  end.

Definition is_space (c : ascii) : bool :=
  let n := nat_of_ascii c in ((9 <=? n)%nat && (n <=? 13)%nat) || (n =? 32)%nat.

Fixpoint lstrip (s : string) : string :=
  match s with
  | String c s' => if is_space c then lstrip s' else s
  | EmptyString => EmptyString
  end.

(** Drops the trailing characters that satisfy [f]. *)
Fixpoint rstrip_by (f : ascii -> bool) (s : string) : string :=
  match s with
  | EmptyString => EmptyString
  | String c s' =>
      match rstrip_by f s' with
      | EmptyString => if f c then EmptyString else String c EmptyString
      | r => String c r
      end
  end.

(** [url.strip().rstrip('/')] *)
Definition strip_url (url : string) : string :=
  rstrip_by (Ascii.eqb "/") (rstrip_by is_space (lstrip url)).

(** [get_repo_files]: (files, base url, error) *)
Definition get_repo_files (w : world) (url : string)
  : option (list file_meta) * option string * option string :=
  let parts := PyStr.split "/" (strip_url url) in
  if (length parts <? 2)%nat then (None, None, Some "Invalid repository URL format.")
  else
    let owner := List.nth (length parts - 2) parts EmptyString in
    let repo := List.last parts EmptyString in
    let is_hf := PyStr.contains "huggingface.co" (PyStr.lower url) in
    let '(files, base_url, error) :=
      if is_hf then
        let '(files, error) := _get_hf_files w owner repo in
        (files, "https://huggingface.co/spaces/" ++ owner ++ "/" ++ repo ++ "/raw/main/", error)
      else
        let '(files, default_branch, error) := _get_github_files w owner repo in
        (files,
         "https://raw.githubusercontent.com/" ++ owner ++ "/" ++ repo ++ "/"
           ++ default "None" default_branch ++ "/",
         error) in
    if truthy error then (None, None, error)
    else
      match files with
      | None | Some [] =>
          let error_msg :=
            "No files found in " ++ (if is_hf then "Hugging Face Space" else "GitHub repository") ++ "." in
          let error_msg :=
            if negb is_hf && negb (truthy (GITHUB_TOKEN w))
            then error_msg ++ " If this is a private repo or you've hit a rate limit, please set a GITHUB_TOKEN."
            else error_msg in
          (None, None, Some error_msg)
      | Some files =>
          let filtered_files := List.filter (fun f => negb (is_excluded (fm_path f))) files in
          (Some filtered_files, Some base_url, None)
      end.

(** Why [get_remote_file_content] gives no content; each is reported as a
    non-empty message. *)
Inductive fetch_error :=
| TooLargeHeader
| TooLargeStreaming
| AppearsBinary
| NetworkError
| ReadError.

Definition digit_of (c : ascii) : option Z :=
  let n := nat_of_ascii c in
  if (48 <=? n)%nat && (n <=? 57)%nat then Some (Z.of_nat (n - 48)) else None.

Fixpoint int_digits (acc : Z) (s : string) : option Z :=
  match s with
  | EmptyString => Some acc
  | String c s' =>
      match digit_of c with
      | Some d => int_digits (10 * acc + d) s'
      | None => None
      end
  end.

(** [int(s)] on a string of decimal digits; [None] is ValueError. (Signs,
    underscores and surrounding blanks, which [int] also reads, do not occur
    in a content-length header.) *)
Definition int_of_str (s : string) : option Z :=
  match s with
  | EmptyString => None
  | _ => int_digits 0 s
  end.

Definition x00 : Byte.byte := Byte.x00.

(** The streaming loop: [content += chunk], then the size test. *)
Fixpoint stream (max_size : Z) (content : list Byte.byte) (body : list chunk_event)
  : list Byte.byte + fetch_error :=
  match body with
  | [] => inl content
  | StreamError :: _ => inr NetworkError
  | Chunk chunk :: rest =>
      let content := (content ++ chunk)%list in
      if (Z.of_nat (length content) >? max_size)%Z then inr TooLargeStreaming
      else stream max_size content rest
  end.

(** All the bytes the body hands over. *)
Definition body_bytes (body : list chunk_event) : list Byte.byte :=
  flat_map (fun e => match e with Chunk data => data | StreamError => [] end) body.

(** The three ways a fetched file is refused: the content-length header
    announces more than the cap, the body hands over more bytes than the
    cap, or a null byte stands among the first 1024 bytes. *)
Definition refused (max_size : Z) (content_length : option string)
    (body : list chunk_event) : Prop :=
  (exists h n, content_length = Some h /\ int_of_str h = Some n /\ (n > max_size)%Z)
  \/ (Z.of_nat (length (body_bytes body)) > max_size)%Z
  \/ x00 ∈ take 1024 (body_bytes body).

(** [get_remote_file_content]: the content or the error *)
Definition get_remote_file_content (w : world) (file_url : string) (max_size : Z)
  : string + fetch_error :=
  match requests_get w file_url with
  | RequestFailed => inr NetworkError
  | Response content_length body =>
      let header : unit + fetch_error :=
        match content_length with
        | Some cl =>
            if negb (String.eqb cl EmptyString) then
              match int_of_str cl with
              | Some n => if (n >? max_size)%Z then inr TooLargeHeader else inl tt
              | None => inr ReadError
              end
            else inl tt
        | None => inl tt
        end in
      match header with
      | inr e => inr e
      | inl _ =>
          match stream max_size [] body with
          | inr e => inr e
          | inl content =>
              if existsb (fun b => Byte.eqb b x00) (take 1024 content)
              then inr AppearsBinary
              else inl (decode_utf8_ignore w content)
          end
      end
  end.

Definition default_max_size : Z := 1000000.

End RepoLoader.


(** ** core/explorer.py *)

Module Explorer.

(** A call on the collection, as the vector store sees it. *)
Inductive call :=
| CallCount
| CallUpsert (documents : list string) (metadatas : list metadata) (ids : list string)
| CallQuery (params : query_params)
| CallGet
| CallDelete (ids : list string).

(** The [SemanticExplorer] object: the collection's content, the shared
    cancellation flag, and the calls made on the collection so far (oldest
    first). *)
Record explorer := {
  collection : gmap string (string * metadata);
  is_cancelled : bool;
  calls : list call
}.

Definition logged (c : call) (self : explorer) : explorer :=
  {| collection := collection self;
     is_cancelled := is_cancelled self;
     calls := calls self ++ [c] |}.

(** [self.collection.count()] *)
Definition collection_count (self : explorer) : nat * explorer :=
  (size (collection self), logged CallCount self).

(** Overwrite-by-id of the items, in order. *)
Definition upsert_items (items : list (string * (string * metadata)))
    (m : gmap string (string * metadata)) : gmap string (string * metadata) :=
  foldl (fun m it => <[it.1 := it.2]> m) m items.

(** [self.collection.upsert(documents=docs, metadatas=metadatas, ids=ids)] *)
Definition collection_upsert (docs : list string) (metadatas : list metadata)
    (ids : list string) (self : explorer) : explorer :=
  {| collection := upsert_items (zip ids (zip docs metadatas)) (collection self);
     is_cancelled := is_cancelled self;
     calls := calls self ++ [CallUpsert docs metadatas ids] |}.

(** [self.collection.get(include=[])['ids']] *)
Definition collection_get (self : explorer) : list string * explorer :=
  ((map_to_list (collection self)).*1, logged CallGet self).

(** [self.collection.delete(ids=ids)] *)
Definition collection_delete (ids : list string) (self : explorer) : explorer :=
  {| collection := foldr delete (collection self) ids;
     is_cancelled := is_cancelled self;
     calls := calls self ++ [CallDelete ids] |}.

(** [self.collection.query] with the keyword arguments [params] *)
Definition collection_query (w : world) (params : query_params) (self : explorer)
  : query_result * explorer :=
  (chroma_query w (collection self) params, logged (CallQuery params) self).

Definition get_status (self : explorer) : string * explorer :=
  let '(count, self) := collection_count self in
  if (0 <? count)%nat
  then ("Persistent index loaded with " ++ PyStr.of_nat count ++ " items.", self)
  else ("Index is empty. Build the index to get started.", self).

Definition nul : string := String Ascii.zero EmptyString.

Definition _get_file_snippet (w : world) (path : string) (max_len : nat) : string :=
  match open_read w path with
  | Some text =>
      if PyStr.contains nul (PyStr.take 1024 text) then EmptyString
      else PyStr.take max_len text
  | None => EmptyString
  end.

Definition cancel_indexing (self : explorer) : explorer :=
  {| collection := collection self; is_cancelled := true; calls := calls self |}.

(** *** Generators

    [Yield msg self resume]: the generator is suspended at a [yield]; the
    caller holds the explorer object and hands it back on the next pull.
    [Poll self resume]: the generator is about to read [self.is_cancelled];
    whatever the outside did to the flag since the last suspension is
    visible in the object [resume] receives. [Stop]: the generator
    returned. [Raise e]: the generator ended with the exception [e], which
    goes to the caller. *)
Inductive pyexn := TypeError | IndexError.

Inductive gen :=
| Stop (self : explorer)
| Raise (e : pyexn) (self : explorer)
| Yield (msg : string) (self : explorer) (resume : explorer -> gen)
| Poll (self : explorer) (resume : explorer -> gen).

(** [os.path.join(a, p)] *)
Definition os_path_join (a p : string) : string :=
  if String.prefix "/" p then p
  else if String.eqb a EmptyString || PyStr.endswith "/" a then a ++ p
  else a ++ "/" ++ p.

(** [os.path.isdir(p)] *)
Definition os_path_isdir (w : world) (p : string) : bool :=
  match os_stat w p with
  | Some st => st_isdir st
  | None => false
  end.

Definition dirnames (entries : list node) : list string :=
  omap (fun n => match n with Dir d _ => Some d | File _ => None end) entries.
Definition filenames (entries : list node) : list string :=
  omap (fun n => match n with File f => Some f | Dir _ _ => None end) entries.

(** The directory names the local scan does not descend into. *)
Definition PRUNED_DIRS : list string :=
  [".git"; "__pycache__"; ".vscode"; "node_modules"; ".idea"; "chroma_db"].
Definition kept (d : string) : bool := negb (PyStr.mem d PRUNED_DIRS).

(** [os.walk] below the entry [n] of the directory [top], top-down. The
    caller's [dirs[:] = ...] rewrites in place the list that [os.walk] then
    descends into, so only the [kept] sub-directories are visited. Each
    triple is (root, dirs, files) as [os.walk] yields it, before the
    caller's rewrite. *)
Fixpoint walk_node (top : string) (n : node) {struct n}
  : list (string * list string * list string) :=
  match n with
  | File _ => []
  | Dir d children =>
      if kept d then
        let here := os_path_join top d in
        (here, dirnames children, filenames children)
          :: flat_map (walk_node here) children
      else []
  end.

(** [os.walk(root_path)] *)
Definition os_walk (w : world) (root_path : string)
  : list (string * list string * list string) :=
  match scandir_tree w root_path with
  | Some entries =>
      (root_path, dirnames entries, filenames entries)
        :: flat_map (walk_node root_path) entries
  | None => []
  end.

(** [range(0, stop, step)] *)
Definition range_step (stop step : nat) : list nat :=
  List.map (fun k => k * step)%nat (seq 0 ((stop + step - 1) / step)).

(** [f"Processing batch {i//batch_size + 1}... ({min(i+batch_size, total)}/{total})"] *)
Definition status_message (i batch_size total : nat) : string :=
  "Processing batch " ++ PyStr.of_nat (i / batch_size + 1) ++ "... ("
    ++ PyStr.of_nat (Nat.min (i + batch_size) total) ++ "/" ++ PyStr.of_nat total ++ ")".

(** The terminal status messages. *)
Definition cancelled_report (final_count : nat) : string :=
  "Build cancelled. The database now contains " ++ PyStr.of_nat final_count ++ " items.".
Definition cancelled_scan_report (count : nat) : string :=
  "Build cancelled. DB size: " ++ PyStr.of_nat count.
Definition complete_report (final_count : nat) : string :=
  "Index build complete. The database now contains " ++ PyStr.of_nat final_count ++ " items.".

(** The last lines of both indexers: count, read the flag, report. *)
Definition finish (self : explorer) : gen :=
  let '(final_count, self) := collection_count self in
  Poll self (fun self =>
    if is_cancelled self then Yield (cancelled_report final_count) self Stop
    else Yield (complete_report final_count) self Stop).

(** [if docs: self.collection.upsert(...)] on the batch's items *)
Definition upsert_batch (items : list (string * metadata * string)) (self : explorer)
  : explorer :=
  let docs := List.map (fun it => it.1.1) items in
  let metadatas := List.map (fun it => it.1.2) items in
  let ids := List.map (fun it => it.2) items in
  match docs with
  | [] => self
  | _ => collection_upsert docs metadatas ids self
  end.

(** The batch loop both indexers share, over the values [i] of
    [range(0, total, batch_size)]:
    [if self.is_cancelled: break], the status message, then the batch
    [items[i:i+batch_size]] is processed; [finish] follows the loop. *)
Fixpoint batch_loop {A : Type} (process : list A -> explorer -> explorer)
    (batch_size : nat) (items : list A) (range : list nat) (self : explorer) : gen :=
  match range with
  | [] => finish self
  | i :: range' =>
      Poll self (fun self =>
        if is_cancelled self then finish self
        else
          let total := length items in
          Yield (status_message i batch_size total) self (fun self =>
            let batch := take batch_size (drop i items) in
            let self := process batch self in
            batch_loop process batch_size items range' self))
  end.

(** The explorer after the batches of [range], when nothing cancels. *)
Definition after_batches {A : Type} (process : list A -> explorer -> explorer)
    (batch_size : nat) (items : list A) (range : list nat) (s : explorer) : explorer :=
  foldl (fun s i => process (take batch_size (drop i items)) s) s range.

(** *** Local directories *)

(** The body of the [try] for one path: (doc, metadata, id), or [None] when
    [os.stat] raises FileNotFoundError. *)
Definition local_item (w : world) (root_path path_str : string)
  : option (string * metadata * string) :=
  match os_stat w path_str with
  | None => None
  | Some stat =>
      let is_dir := os_path_isdir w path_str in
      let relative_path := os_path_relpath w path_str root_path in
      let doc :=
        "Type: " ++ (if is_dir then "Folder" else "File") ++ ". Path: "
          ++ PyStr.replace "/" " " relative_path ++ ". Tree: "
          ++ PyStr.join " > " (Pathlib.parts relative_path) ++ ". " in
      let doc :=
        if negb is_dir then doc ++ "Content Snippet: " ++ _get_file_snippet w path_str 500
        else doc in
      let unique_id := "local::" ++ path_str in
      Some (doc,
            {| full_path := path_str; relative_path := relative_path; is_dir := is_dir;
               size_bytes := Some (st_size stat); modified_time := st_mtime stat;
               source_type := "local"; repo_url := None |},
            unique_id)
  end.

Definition local_batch_size : nat := 128.

Definition process_local_batch (w : world) (root_path : string)
    (batch_paths : list string) (self : explorer) : explorer :=
  upsert_batch (omap (local_item w root_path) batch_paths) self.

(** The batch loop of [_index_local_directory] *)
Definition local_batches (w : world) (root_path : string) (all_paths : list string)
    (range : list nat) (self : explorer) : gen :=
  batch_loop (process_local_batch w root_path) local_batch_size all_paths range self.

Definition scan_complete_report (total_paths : nat) : string :=
  "Scan complete. Found " ++ PyStr.of_nat total_paths ++ " items to process.".

(** What follows the enumeration loop. *)
Definition local_after_scan (w : world) (root_path : string) (all_paths : list string)
    (self : explorer) : gen :=
  Poll self (fun self =>
    if is_cancelled self then
      let '(count, self) := collection_count self in
      Yield (cancelled_scan_report count) self Stop
    else
      let total_paths := length all_paths in
      Yield (scan_complete_report total_paths) self
        (fun self =>
           local_batches w root_path all_paths
             (range_step total_paths local_batch_size) self)).

(** The enumeration loop over the triples of [os.walk]. *)
Fixpoint local_scan (w : world) (root_path : string)
    (triples : list (string * list string * list string))
    (all_paths : list string) (self : explorer) : gen :=
  match triples with
  | [] => local_after_scan w root_path all_paths self
  | (root, dirs, files) :: triples' =>
      Poll self (fun self =>
        if is_cancelled self then local_after_scan w root_path all_paths self
        else
          let dirs := List.filter kept dirs in
          let all_paths :=
            (all_paths ++ List.map (os_path_join root) (files ++ dirs))%list in
          local_scan w root_path triples' all_paths self)
  end.

Definition _index_local_directory (w : world) (root_path : string) (self : explorer) : gen :=
  if negb (os_path_isdir w root_path) then
    Yield "Error: Provided path is not a valid directory." self Stop
  else
    Yield "Scanning directories..." self (fun self =>
      local_scan w root_path (os_walk w root_path) [] self).

(** *** Remote repositories *)

(** The body of the inner loop for one listed file: (doc, metadata, id), or
    [None] when the fetch reports an error and the file is skipped. *)
Definition repo_item (w : world) (repo_url content_base_url : string) (file_meta : file_meta)
  : option (string * metadata * string) :=
  let file_path := fm_path file_meta in
  let file_url := urljoin_quote w content_base_url file_path in
  match RepoLoader.get_remote_file_content w file_url RepoLoader.default_max_size with
  | inr _ => None
  | inl content =>
      let snippet := PyStr.take 500 content in
      let doc :=
        "Type: File. Path: " ++ PyStr.replace "/" " " file_path ++ ". Tree: "
          ++ PyStr.join " > " (Pathlib.parts file_path) ++ ". Content Snippet: " ++ snippet in
      let unique_id := "repo::" ++ repo_url ++ "::" ++ file_path in
      Some (doc,
            {| full_path := file_url; relative_path := file_path; is_dir := false;
               size_bytes := fm_size file_meta;
               modified_time := datetime_now w file_path;
               source_type := "repository"; repo_url := Some repo_url |},
            unique_id)
  end.

Definition repo_batch_size : nat := 50.

Definition process_repo_batch (w : world) (repo_url content_base_url : string)
    (batch_files : list file_meta) (self : explorer) : explorer :=
  upsert_batch (omap (repo_item w repo_url content_base_url) batch_files) self.

(** The batch loop of [_index_repository] *)
Definition repo_batches (w : world) (repo_url content_base_url : string)
    (files : list file_meta) (range : list nat) (self : explorer) : gen :=
  batch_loop (process_repo_batch w repo_url content_base_url) repo_batch_size files range self.

Definition found_report (total_files : nat) : string :=
  "Found " ++ PyStr.of_nat total_files ++ " files to process.".

Definition _index_repository (w : world) (repo_url : string) (self : explorer) : gen :=
  Yield "Fetching repository file list..." self (fun self =>
    let '(files, content_base_url, error) := RepoLoader.get_repo_files w repo_url in
    if RepoLoader.truthy error then
      Yield ("Error: " ++ default EmptyString error) self Stop
    else
      match files with
      | None => Raise TypeError self   (* [len(None)] *)
      | Some files =>
          (* [urljoin] takes a base url of [None] as it takes the empty one *)
          let content_base_url := default EmptyString content_base_url in
          let total_files := length files in
          Yield (found_report total_files) self (fun self =>
            repo_batches w repo_url content_base_url files
              (range_step total_files repo_batch_size) self)
      end).

(** [index_directory(path_or_url)]: the generator object; its body starts
    to run, on the explorer as it then is, at the first pull. *)
Definition index_directory (w : world) (path_or_url : string) : explorer -> gen :=
  fun self =>
    let self :=
      {| collection := collection self; is_cancelled := false; calls := calls self |} in
    if PyStr.contains "github.com" path_or_url || PyStr.contains "huggingface.co" path_or_url
    then _index_repository w path_or_url self
    else _index_local_directory w path_or_url self.

(** *** Driving a generator

    The caller pulls until the generator returns. [env t] says whether the
    outside calls [cancel_indexing] while the generator is at its [t]-th
    suspension or flag read. The result is the status stream and the
    explorer at the end. *)
Definition outside (cancel : bool) (self : explorer) : explorer :=
  if cancel then cancel_indexing self else self.

Fixpoint drive (env : nat -> bool) (t : nat) (g : gen) : list string * explorer :=
  match g with
  | Stop self => ([], self)
  | Raise _ self => ([], self)
  | Yield msg self resume =>
      let r := drive env (S t) (resume (outside (env t) self)) in
      (msg :: r.1, r.2)
  | Poll self resume => drive env (S t) (resume (outside (env t) self))
  end.


(** The outside never cancels. *)
Definition never : nat -> bool := fun _ => false.

(** [always I g]: whatever the outside does, [g] returns, and the explorer
    then satisfies [I]. *)
Inductive always (I : explorer -> Prop) : gen -> Prop :=
| always_stop s : I s -> always I (Stop s)
| always_yield m s k : (forall b, always I (k (outside b s))) -> always I (Yield m s k)
| always_poll s k : (forall b, always I (k (outside b s))) -> always I (Poll s k).

(** [resumption g s k]: in some run of [g] the generator is suspended (at a
    [yield], or before a read of the flag) holding the explorer [s], with
    [k] as what it does when it goes on. *)
Inductive resumption : gen -> explorer -> (explorer -> gen) -> Prop :=
| resumption_yield m s k : resumption (Yield m s k) s k
| resumption_poll s k : resumption (Poll s k) s k
| resumption_yield_later m s k b s' k' :
    resumption (k (outside b s)) s' k' -> resumption (Yield m s k) s' k'
| resumption_poll_later s k b s' k' :
    resumption (k (outside b s)) s' k' -> resumption (Poll s k) s' k'.

(** The number of batches upserted. *)
Fixpoint upserts (cs : list call) : nat :=
  match cs with
  | [] => 0
  | CallUpsert _ _ _ :: cs' => S (upserts cs')
  | _ :: cs' => upserts cs'
  end.


(** What the rest of the run looks like when [cancel_indexing] is called
    while the generator is suspended with explorer [s] and resumption [k]:
    at most one more batch is upserted and, unless the generator had already
    given its last message, the one message that follows reports the
    cancellation with the size of the collection. [scan] says whether the
    report of the enumeration loop, which only a local run has, may be that
    message. *)
Definition stops_when_cancelled (scan : bool) (s : explorer) (k : explorer -> gen) : Prop :=
  forall env t,
    let r := drive env t (k (cancel_indexing s)) in
    (upserts (calls r.2) <= upserts (calls s) + 1)%nat
    /\ is_cancelled r.2 = true
    /\ (k (cancel_indexing s) = Stop (cancel_indexing s)
        \/ r.1 = [cancelled_report (size (collection r.2))]
        \/ (scan = true /\ r.1 = [cancelled_scan_report (size (collection r.2))])).

(** The same for a repository run, which has no enumeration loop, and where
    two more streams can follow: the file count and then the cancellation
    report, or the error of the file listing. *)
Definition repo_stops_when_cancelled (w : world) (repo_url : string)
    (s : explorer) (k : explorer -> gen) : Prop :=
  forall env t,
    let r := drive env t (k (cancel_indexing s)) in
    (upserts (calls r.2) <= upserts (calls s) + 1)%nat
    /\ is_cancelled r.2 = true
    /\ (k (cancel_indexing s) = Stop (cancel_indexing s)
        \/ r.1 = [cancelled_report (size (collection r.2))]
        \/ (exists files base,
              RepoLoader.get_repo_files w repo_url = (Some files, Some base, None)
              /\ r.1 = [found_report (length files); cancelled_report (size (collection r.2))])
        \/ (exists error,
              RepoLoader.get_repo_files w repo_url = (None, None, Some error)
              /\ error <> EmptyString
              /\ r.1 = ["Error: " ++ error])).

(** [root/d1/.../dn], joined as [os.walk] does. *)
Definition path_of (root : string) (chain : list string) : string :=
  foldl os_path_join root chain.

(** The invariant of the collection that the exclusion properties rest on:
    every stored item was there at the start ([m0]) or satisfies [P]. *)
Definition old_or (m0 : gmap string (string * metadata))
    (P : string -> string * metadata -> Prop) (m : gmap string (string * metadata)) : Prop :=
  forall id v, m !! id = Some v -> m0 !! id = Some v \/ P id v.

(** *** A run that nothing cancels *)

Definition run_to_end (w : world) (path_or_url : string) (self : explorer)
  : list string * explorer :=
  drive never 0 (index_directory w path_or_url self).

(** The paths the enumeration loop collects from the triples of [os.walk]. *)
Definition scanned_paths (triples : list (string * list string * list string))
  : list string :=
  flat_map (fun '(root, dirs, files) =>
              List.map (os_path_join root) (files ++ List.filter kept dirs)) triples.

Definition local_paths (w : world) (root_path : string) : list string :=
  scanned_paths (os_walk w root_path).

Definition is_repository (path_or_url : string) : bool :=
  PyStr.contains "github.com" path_or_url || PyStr.contains "huggingface.co" path_or_url.

Definition local_ids (w : world) (root_path : string) (paths : list string) : gset string :=
  list_to_set (omap (local_item w root_path) paths).*2.

Definition repo_ids (w : world) (repo_url base : string) (files : list file_meta)
  : gset string :=
  list_to_set (omap (repo_item w repo_url base) files).*2.

(** The ids a run to the end upserts. *)
Definition indexed_ids (w : world) (path_or_url : string) : gset string :=
  if is_repository path_or_url then
    match RepoLoader.get_repo_files w path_or_url with
    | (Some files, Some base, error) =>
        if RepoLoader.truthy error then ∅ else repo_ids w path_or_url base files
    | _ => ∅
    end
  else if os_path_isdir w path_or_url then local_ids w path_or_url (local_paths w path_or_url)
  else ∅.

(** The status stream of a run to the end, given the count it reports. *)
Definition expected_stream (w : world) (path_or_url : string) (final_count : nat)
  : list string :=
  if is_repository path_or_url then
    "Fetching repository file list..." ::
    match RepoLoader.get_repo_files w path_or_url with
    | (files, base, error) =>
        if RepoLoader.truthy error then ["Error: " ++ default EmptyString error]
        else
          match files, base with
          | Some files, Some _ =>
              found_report (length files) ::
              List.map (fun i => status_message i repo_batch_size (length files))
                (range_step (length files) repo_batch_size)
              ++ [complete_report final_count]
          | _, _ => []
          end
    end
  else if os_path_isdir w path_or_url then
    let total_paths := length (local_paths w path_or_url) in
    "Scanning directories..." :: scan_complete_report total_paths ::
    List.map (fun i => status_message i local_batch_size total_paths)
      (range_step total_paths local_batch_size)
    ++ [complete_report final_count]
  else ["Error: Provided path is not a valid directory."].

(** The same world at another time of day. *)
Definition with_clock (w : world) (clock : string -> float) : world :=
  {| chroma_query := chroma_query w;
     datetime_now := clock;
     os_stat := os_stat w;
     scandir_tree := scandir_tree w;
     open_read := open_read w;
     os_path_relpath := os_path_relpath w;
     _get_github_files := _get_github_files w;
     _get_hf_files := _get_hf_files w;
     GITHUB_TOKEN := GITHUB_TOKEN w;
     requests_get := requests_get w;
     decode_utf8_ignore := decode_utf8_ignore w;
     urljoin_quote := urljoin_quote w;
     encode := encode w |}.

(** *** Search *)


Inductive type_label := Folder | PlainFile.

Record search_result := {
  similarity : float;
  path : string;
  result_full_path : string;
  type_ : type_label;
  size_ : option Z;
  modified : float            (* the stored epoch value, as a datetime *)
}.

(** [extract_path_filter(conditions)], with the variable
    [path_contains_filter] it assigns passed in and out. *)
Fixpoint extract_path_filter (conditions : list cond) (path_contains_filter : option lit)
  : list cond * option lit :=
  match conditions with
  | [] => ([], path_contains_filter)
  | cond :: conditions' =>
      match cond !! "relative_path" with
      | Some ops =>
          match ops !! "$contains" with
          | Some v => extract_path_filter conditions' (Some v)
          | None =>
              let '(remaining, pcf) := extract_path_filter conditions' path_contains_filter in
              (cond :: remaining, pcf)
          end
      | None =>
          let '(remaining, pcf) := extract_path_filter conditions' path_contains_filter in
          (cond :: remaining, pcf)
      end
  end.

(** The rewriting of [db_filters]: the native filter and
    [path_contains_filter]. *)
Definition split_filters (metadata_filters : option where_) : where_ * option lit :=
  let db_filters :=
    match metadata_filters with
    | Some f => if where_nonempty f then f else empty_where
    | None => empty_where
    end in
  match and_ db_filters with
  | Some conditions =>
      let '(remaining, pcf) := extract_path_filter conditions None in
      match remaining with
      | [] => ({| and_ := None; fields := fields db_filters |}, pcf)
      | _ => ({| and_ := Some remaining; fields := fields db_filters |}, pcf)
      end
  | None =>
      match fields db_filters !! "relative_path" with
      | Some ops =>
          match ops !! "$contains" with
          | Some v =>
              ({| and_ := None; fields := delete "relative_path" (fields db_filters) |}, Some v)
          | None => (db_filters, None)
          end
      | None => (db_filters, None)
      end
  end.

(** [path_contains_filter and path_contains_filter not in meta['relative_path']]:
    whether the candidate is dropped. A truthy value that is not a string
    makes [not in] raise. *)
Definition fails_path_filter (path_contains_filter : option lit) (meta : metadata)
  : bool + pyexn :=
  match path_contains_filter with
  | None => inl false
  | Some (LStr sub) =>
      if String.eqb sub EmptyString then inl false
      else inl (negb (PyStr.contains sub (relative_path meta)))
  | Some (LInt z) => if (z =? 0)%Z then inl false else inr TypeError
  | Some (LBool b) => if b then inr TypeError else inl false
  end.

(** The dict appended to [output] for a candidate. *)
Definition result_of (dist : float) (meta : metadata) : search_result :=
  {| similarity := PrimFloat.sub 1 dist;
     path := relative_path meta;
     result_full_path := full_path meta;
     type_ := if is_dir meta then Folder else PlainFile;
     size_ := if negb (is_dir meta) then size_bytes meta else None;
     modified := modified_time meta |}.

(** The loop [for i, dist in enumerate(results['distances'][0])]. *)
Fixpoint collect (path_contains_filter : option lit) (n_results : Z)
    (metadatas : list metadata) (i : nat) (distances : list float)
    (output : list search_result) : list search_result + pyexn :=
  match distances with
  | [] => inl output
  | dist :: distances' =>
      match metadatas !! i with
      | None => inr IndexError
      | Some meta =>
          match fails_path_filter path_contains_filter meta with
          | inr e => inr e
          | inl true => collect path_contains_filter n_results metadatas (S i) distances' output
          | inl false =>
              let output := (output ++ [result_of dist meta])%list in
              if (Z.of_nat (length output) >=? n_results)%Z then inl output
              else collect path_contains_filter n_results metadatas (S i) distances' output
          end
      end
  end.

Definition search (w : world) (query : string) (n_results : Z)
    (metadata_filters : option where_) (self : explorer)
  : (list search_result + pyexn) * explorer :=
  let '(count, self) := collection_count self in
  if (count =? 0)%nat then (inl [], self)
  else
    let '(db_filters, path_contains_filter) := split_filters metadata_filters in
    let '(count, self) := collection_count self in
    let query_params :=
      {| query_embeddings := [encode w query];
         n_results := Z.min (n_results * 5) (Z.of_nat count);
         where_filter := if where_nonempty db_filters then Some db_filters else None |} in
    let '(results, self) := collection_query w query_params self in
    match ids0 results with
    | [] => (inl [], self)
    | _ =>
        (collect path_contains_filter n_results (metadatas0 results) 0 (distances0 results) [],
         self)
    end.

(** *** The filter rewriting and the post-filter, in the spec's words *)

(** The substring of a ["relative_path contains substring"] condition. *)
Definition path_contains_of (c : cond) : option lit :=
  match c !! "relative_path" with
  | Some ops => ops !! "$contains"
  | None => None
  end.

(** The conditions the vector store is given. *)
Definition native_conditions (conditions : list cond) : list cond :=
  List.filter (fun c => match path_contains_of c with Some _ => false | None => true end)
    conditions.



(** *** Index lifecycle *)

Definition clear_index (self : explorer) : nat * explorer :=
  let '(count, self) := collection_count self in
  if (0 <? count)%nat then
    let '(ids_to_delete, self) := collection_get self in
    match ids_to_delete with
    | [] => (count, self)
    | _ => (count, collection_delete ids_to_delete self)
    end
  else (count, self).

End Explorer.

(** ** Concrete worlds, for the examples *)

Module Examples.
Import Explorer.

Definition no_result : query_result := {| ids0 := []; distances0 := []; metadatas0 := [] |}.

(** A project directory [/proj] holding [.env], [logo.png], [main.py] and a
    [node_modules] directory with one file. *)
Definition proj_tree : list node :=
  [File ".env"; File "logo.png"; Dir "node_modules" [File "left-pad.js"]; File "main.py"].

Definition a_stat (d : bool) : stat_result :=
  {| st_size := 10; st_mtime := 0%float; st_isdir := d |}.

Definition local_world : world :=
  {| chroma_query := fun _ _ => no_result;
     datetime_now := fun _ => 0%float;
     os_stat := fun p =>
       if String.eqb p "/proj" then Some (a_stat true)
       else if String.prefix "/proj/" p then Some (a_stat false)
       else None;
     scandir_tree := fun p => if String.eqb p "/proj" then Some proj_tree else None;
     open_read := fun _ => Some "text";
     os_path_relpath := fun p root => String.substring 6 (String.length p - 6) p;
     _get_github_files := fun _ _ => (None, None, Some "Error fetching from GitHub API: timeout. ");
     _get_hf_files := fun _ _ => (None, Some "Error fetching from Hugging Face Hub: timeout");
     GITHUB_TOKEN := None;
     requests_get := fun _ => RequestFailed;
     decode_utf8_ignore := fun _ => EmptyString;
     urljoin_quote := fun base p => base ++ p;
     encode := fun _ => [] |}.

Definition fresh : explorer := {| collection := ∅; is_cancelled := false; calls := [] |}.

(** The explorer after [/proj] was indexed. *)
Definition indexed : explorer := (run_to_end local_world "/proj" fresh).2.

Definition meta_of (rel : string) : metadata :=
  {| full_path := "/proj/" ++ rel; relative_path := rel; is_dir := false;
     size_bytes := Some 10%Z; modified_time := 0%float;
     source_type := "local"; repo_url := None |}.

(** A store that ranks [a.txt], [b.txt], [ab.txt], the last at a negative
    distance. *)
Definition ranking : query_result :=
  {| ids0 := ["local::/proj/a.txt"; "local::/proj/b.txt"; "local::/proj/ab.txt"];
     distances0 := [0.25%float; 0.5%float; (-0.5)%float];
     metadatas0 := [meta_of "a.txt"; meta_of "b.txt"; meta_of "ab.txt"] |}.

Definition search_world : world :=
  {| chroma_query := fun _ _ => ranking;
     datetime_now := datetime_now local_world;
     os_stat := os_stat local_world;
     scandir_tree := scandir_tree local_world;
     open_read := open_read local_world;
     os_path_relpath := os_path_relpath local_world;
     _get_github_files := _get_github_files local_world;
     _get_hf_files := _get_hf_files local_world;
     GITHUB_TOKEN := None;
     requests_get := requests_get local_world;
     decode_utf8_ignore := decode_utf8_ignore local_world;
     urljoin_quote := urljoin_quote local_world;
     encode := encode local_world |}.

(** The GitHub repository [acme/tool]: a readme, a file announced as two
    million bytes, and an image. *)
Definition readme : file_meta := {| fm_path := "README.md"; fm_size := Some 2%Z |}.
Definition big : file_meta := {| fm_path := "big.bin"; fm_size := Some 2000000%Z |}.
Definition logo : file_meta := {| fm_path := "assets/logo.png"; fm_size := Some 900%Z |}.

Definition repo_world : world :=
  {| chroma_query := fun _ _ => no_result;
     datetime_now := fun _ => 0%float;
     os_stat := fun _ => None;
     scandir_tree := fun _ => None;
     open_read := fun _ => None;
     os_path_relpath := fun p _ => p;
     _get_github_files := fun _ _ => (Some [readme; big; logo], Some "main", None);
     _get_hf_files := fun _ _ => (None, Some "Error fetching from Hugging Face Hub: timeout");
     GITHUB_TOKEN := None;
     requests_get := fun url =>
       if PyStr.endswith "big.bin" url then Response (Some "2000000") []
       else Response (Some "2") [Chunk [Byte.x68; Byte.x69]];
     decode_utf8_ignore := String.string_of_list_byte;
     urljoin_quote := fun base p => base ++ p;
     encode := fun _ => [] |}.

(** A server that answers every request with three bytes, the second one
    null, and no content-length. *)
Definition binary_world : world :=
  {| chroma_query := chroma_query repo_world;
     datetime_now := datetime_now repo_world;
     os_stat := os_stat repo_world;
     scandir_tree := scandir_tree repo_world;
     open_read := open_read repo_world;
     os_path_relpath := os_path_relpath repo_world;
     _get_github_files := _get_github_files repo_world;
     _get_hf_files := _get_hf_files repo_world;
     GITHUB_TOKEN := None;
     requests_get := fun _ => Response None [Chunk [Byte.x61; Byte.x00; Byte.x62]];
     decode_utf8_ignore := decode_utf8_ignore repo_world;
     urljoin_quote := urljoin_quote repo_world;
     encode := encode repo_world |}.

Definition tool_url : string := "https://github.com/acme/tool".
Definition tool_base : string := "https://raw.githubusercontent.com/acme/tool/main/".


(** What is stored for [/proj/main.py]. *)
Definition main_py_item : string * metadata :=
  ("Type: File. Path: main.py. Tree: main.py. Content Snippet: text",
   {| full_path := "/proj/main.py"; relative_path := "main.py"; is_dir := false;
      size_bytes := Some 10%Z; modified_time := 0%float;
      source_type := "local"; repo_url := None |}).

Definition path_contains (sub : string) : cond :=
  {["relative_path" := {["$contains" := LStr sub]}]}.

(** [{"$and": [{"relative_path": {"$contains": "a"}},
               {"relative_path": {"$contains": "b"}}]}] *)
Definition two_contains : where_ :=
  {| and_ := Some [path_contains "a"; path_contains "b"]; fields := ∅ |}.

End Examples.

(** ** Further notions, for the properties beyond the pipeline's core *)

Module More.
Import Explorer.

(** Nothing is removed from [m0], only ids of [ids] are added, and the
    items outside [ids] are as they were in [m0]. *)
Definition only_adds (m0 : gmap string (string * metadata)) (ids : gset string)
    (m : gmap string (string * metadata)) : Prop :=
  dom m0 ⊆ dom m /\ dom m ⊆ dom m0 ∪ ids /\ forall id, id ∉ ids -> m !! id = m0 !! id.

(** A call an indexer may make: a count, or an upsert of parallel,
    non-empty lists of at most [bound] items. *)
Definition indexer_call (bound : nat) (c : call) : Prop :=
  match c with
  | CallCount => True
  | CallUpsert documents metadatas ids =>
      documents <> []
      /\ length documents = length ids
      /\ length metadatas = length ids
      /\ (length ids <= bound)%nat
  | _ => False
  end.

(** [subdir entries chain entries']: going down [chain] from a directory
    whose entries are [entries] leads to a directory whose entries are
    [entries']. *)
Inductive subdir : list node -> list string -> list node -> Prop :=
| subdir_here entries : subdir entries [] entries
| subdir_down entries d children chain entries' :
    Dir d children ∈ entries ->
    subdir children chain entries' ->
    subdir entries (d :: chain) entries'.


(** A GitHub repository that holds an image and a lock file only. *)
Definition excluded_only_world : world :=
  {| chroma_query := chroma_query Examples.repo_world;
     datetime_now := datetime_now Examples.repo_world;
     os_stat := os_stat Examples.repo_world;
     scandir_tree := scandir_tree Examples.repo_world;
     open_read := open_read Examples.repo_world;
     os_path_relpath := os_path_relpath Examples.repo_world;
     _get_github_files := fun _ _ =>
       (Some [Examples.logo; {| fm_path := "poetry.lock"; fm_size := Some 4000%Z |}],
        Some "main", None);
     _get_hf_files := _get_hf_files Examples.repo_world;
     GITHUB_TOKEN := None;
     requests_get := requests_get Examples.repo_world;
     decode_utf8_ignore := decode_utf8_ignore Examples.repo_world;
     urljoin_quote := urljoin_quote Examples.repo_world;
     encode := encode Examples.repo_world |}.

(** [{"relative_path": {"$contains": v}}] *)
Definition contains_value (v : lit) : where_ :=
  {| and_ := None; fields := {["relative_path" := {["$contains" := v]}]} |}.

(** A name as a directory holds it: not empty and without a slash. *)
Definition plain_name (name : string) : bool :=
  negb (String.eqb name EmptyString) && PyStr.free_of Pathlib.slash name.

(** Every name in the tree below [n], [n]'s own included, is plain. *)
Fixpoint plain_tree (n : node) : bool :=
  match n with
  | File f => plain_name f
  | Dir d children => plain_name d && forallb plain_tree children
  end.

(** What [os.path.join] puts between [a] and a relative name. *)
Definition sep_after (a : string) : string :=
  if String.eqb a EmptyString || PyStr.endswith "/" a then EmptyString else "/".
End More.

(** * Properties *)

(** ** Strings and paths *)

Section Strings.

Lemma app_nil_s (s : string) : EmptyString ++ s = s.
Proof. reflexivity. Qed.

Lemma app_cons_s (c : ascii) (a s : string) : String c a ++ s = String c (a ++ s).
Proof. reflexivity. Qed.

Lemma app_nil_r_s (s : string) : s ++ EmptyString = s.
Proof. induction s as [|c s IH]; [reflexivity | now rewrite app_cons_s, IH]. Qed.

Lemma prefix_app (sub b : string) : String.prefix sub (sub ++ b) = true.
Proof.
  induction sub as [|c sub IH]; simpl.
  - now destruct b.
  - destruct (ascii_dec c c) as [_|Hne]; [exact IH | now destruct Hne].
Qed.

Lemma contains_eq (sub s : string) :
  PyStr.contains sub s =
  String.prefix sub s ||
  match s with
  | EmptyString => false
  | String _ s' => PyStr.contains sub s'
  end.
Proof. destruct s; reflexivity. Qed.

Lemma contains_intro (sub a b : string) : PyStr.contains sub (a ++ sub ++ b) = true.
Proof.
  induction a as [|c a IH].
  - now rewrite app_nil_s, contains_eq, prefix_app.
  - rewrite app_cons_s, contains_eq, IH. apply orb_true_r.
Qed.

Lemma prefix_elim (sub s : string) :
  String.prefix sub s = true -> exists b, s = sub ++ b.
Proof.
  revert s. induction sub as [|c sub IH]; intros s H.
  - now exists s.
  - destruct s as [|d s]; simpl in H; [discriminate|].
    destruct (ascii_dec c d) as [->|]; [|discriminate].
    destruct (IH _ H) as [b ->]. now exists b.
Qed.

Lemma contains_elim (sub s : string) :
  PyStr.contains sub s = true -> exists a b, s = a ++ sub ++ b.
Proof.
  induction s as [|c s IH]; rewrite contains_eq; intros H.
  - rewrite orb_false_r in H. destruct (prefix_elim _ _ H) as [b ->].
    now exists EmptyString, b.
  - apply orb_true_iff in H as [H|H].
    + destruct (prefix_elim _ _ H) as [b ->]. now exists EmptyString, b.
    + destruct (IH H) as (a & b & ->). now exists (String c a), b.
Qed.

Lemma split_nonempty (sep : ascii) (s : string) : PyStr.split sep s <> [].
Proof.
  destruct s as [|c s]; simpl; [discriminate|].
  destruct (Ascii.eqb c sep); [discriminate|].
  destruct (PyStr.split sep s); discriminate.
Qed.

Lemma split_app_sep (sep : ascii) (a b : string) :
  PyStr.split sep (a ++ String sep b) = (PyStr.split sep a ++ PyStr.split sep b)%list.
Proof.
  induction a as [|c a IH]; simpl.
  - now rewrite Ascii.eqb_refl.
  - destruct (Ascii.eqb c sep); rewrite IH; [reflexivity|].
    pose proof (split_nonempty sep a) as Hne.
    destruct (PyStr.split sep a); [now destruct Hne | reflexivity].
Qed.

Lemma split_free (sep : ascii) (s : string) :
  PyStr.free_of sep s = true -> PyStr.split sep s = [s].
Proof.
  induction s as [|c s IH]; simpl; [reflexivity|].
  intros [Hc Hs]%andb_true_iff. apply negb_true_iff in Hc.
  now rewrite Hc, (IH Hs).
Qed.

Lemma split_app_free (sep : ascii) (a s : string) :
  PyStr.free_of sep s = true ->
  exists pre x, PyStr.split sep (a ++ s) = List.app pre [x ++ s].
Proof.
  intros Hs. induction a as [|c a (pre & x & IH)]; simpl.
  - exists [], EmptyString. now apply split_free.
  - destruct (Ascii.eqb c sep); rewrite IH.
    + now exists (EmptyString :: pre), x.
    + destruct pre as [|w ws]; simpl.
      * now exists [], (String c x).
      * now exists (String c w :: ws), x.
Qed.

Lemma app_assoc_s (a b c : string) : (a ++ b) ++ c = a ++ b ++ c.
Proof. induction a as [|x a IH]; [reflexivity | now rewrite !app_cons_s, IH]. Qed.

Lemma join_elem (sep : string) (l1 l2 : list string) (y : string) :
  exists u v, PyStr.join sep (l1 ++ y :: l2) ++ sep = u ++ y ++ sep ++ v.
Proof.
  induction l1 as [|x l1 (u & v & IH)].
  - destruct l2 as [|z l2].
    + exists EmptyString, EmptyString. cbn [PyStr.join app].
      now rewrite app_nil_s, app_nil_r_s.
    + exists EmptyString, (PyStr.join sep (z :: l2) ++ sep).
      change (PyStr.join sep ([] ++ y :: z :: l2))
        with (y ++ sep ++ PyStr.join sep (z :: l2)).
      now rewrite !app_assoc_s.
  - exists (x ++ sep ++ u), v.
    assert (PyStr.join sep ((x :: l1) ++ y :: l2)
            = x ++ sep ++ PyStr.join sep (l1 ++ y :: l2)) as ->.
    { destruct l1; reflexivity. }
    now rewrite !app_assoc_s, IH.
Qed.

Lemma length_app_s (a b : string) :
  String.length (a ++ b) = (String.length a + String.length b)%nat.
Proof. induction a as [|c a IH]; [reflexivity | rewrite app_cons_s; simpl; now rewrite IH]. Qed.

(** A segment that ends in [seg] and is followed by a slash is a component
    of the parsed path. *)
Lemma segments_intro (a seg b : string) :
  PyStr.free_of Pathlib.slash seg = true -> (2 <= String.length seg)%nat ->
  exists l1 x l2, Pathlib.segments (a ++ seg ++ "/" ++ b) = List.app l1 ((x ++ seg) :: l2).
Proof.
  intros Hfree Hlen. unfold Pathlib.segments.
  replace (a ++ seg ++ "/" ++ b) with ((a ++ seg) ++ String Pathlib.slash b)
    by now rewrite app_assoc_s.
  rewrite split_app_sep.
  destruct (split_app_free Pathlib.slash a seg Hfree) as (pre & x & ->).
  rewrite !List.filter_app. cbn [List.filter].
  assert (negb (String.eqb (x ++ seg) EmptyString) && negb (String.eqb (x ++ seg) ".") = true) as ->.
  { apply andb_true_iff; split; apply negb_true_iff, String.eqb_neq; intros E;
      apply (f_equal String.length) in E; rewrite length_app_s in E; simpl in E; lia. }
  eexists _, x, _. now rewrite <- List.app_assoc.
Qed.

Lemma as_posix_segments (p : string) :
  Pathlib.segments p <> [] ->
  Pathlib.as_posix p = Pathlib.root p ++ PyStr.join "/" (Pathlib.segments p).
Proof.
  intros Hne. unfold Pathlib.as_posix.
  destruct (Pathlib.root p); [|reflexivity].
  destruct (Pathlib.segments p); [now destruct Hne | reflexivity].
Qed.

(** The pattern test of [is_excluded] fires on every path with a component
    ending in [seg] that is followed by a slash. *)
Lemma normalized_contains (a seg b : string) :
  PyStr.free_of Pathlib.slash seg = true -> (2 <= String.length seg)%nat ->
  PyStr.contains (seg ++ "/") (Pathlib.as_posix (a ++ seg ++ "/" ++ b) ++ "/") = true.
Proof.
  intros Hfree Hlen.
  destruct (segments_intro a seg b Hfree Hlen) as (l1 & x & l2 & Hseg).
  rewrite as_posix_segments by (rewrite Hseg; now destruct l1).
  rewrite Hseg, app_assoc_s.
  destruct (join_elem "/" l1 l2 (x ++ seg)) as (u & v & ->).
  replace (Pathlib.root (a ++ seg ++ "/" ++ b) ++ u ++ (x ++ seg) ++ "/" ++ v)
    with ((Pathlib.root (a ++ seg ++ "/" ++ b) ++ u ++ x) ++ (seg ++ "/") ++ v)
    by now rewrite !app_assoc_s.
  apply contains_intro.
Qed.

End Strings.

(** ** [is_excluded] *)

Section Exclusion.
Import RepoLoader.

Lemma is_excluded_node_modules (p : string) :
  PyStr.contains "node_modules/" p = true -> is_excluded p = true.
Proof.
  intros (a & b & ->)%contains_elim. unfold is_excluded.
  destruct (_ || _); [reflexivity|].
  pose proof (normalized_contains a "node_modules" b eq_refl) as H.
  change ("node_modules" ++ "/") with "node_modules/" in H.
  replace (a ++ "node_modules/" ++ b) with (a ++ "node_modules" ++ "/" ++ b)
    by now rewrite <- (app_assoc_s "node_modules" "/" b).
  cbn [existsb EXCLUDE_PATTERNS]. rewrite H by (simpl; lia).
  now rewrite !orb_true_r.
Qed.

Lemma is_excluded_png (p : string) :
  PyStr.lower (Pathlib.suffix p) = ".png" -> is_excluded p = true.
Proof.
  intros H. unfold is_excluded. rewrite H.
  replace (PyStr.mem ".png" EXCLUDE_EXTENSIONS) with true by reflexivity.
  now rewrite orb_true_r.
Qed.

End Exclusion.

(** ** The collection *)

Section Collection.
Import Explorer.

Lemma upsert_items_dom (items : list (string * (string * metadata)))
    (m : gmap string (string * metadata)) :
  dom (upsert_items items m) = dom m ∪ list_to_set items.*1.
Proof.
  unfold upsert_items. revert m.
  induction items as [|[k v] items IH]; intros m; simpl.
  - set_solver.
  - rewrite IH, dom_insert_L. set_solver.
Qed.

Lemma upsert_items_lookup (items : list (string * (string * metadata)))
    (m : gmap string (string * metadata)) (k : string) (v : string * metadata) :
  upsert_items items m !! k = Some v -> m !! k = Some v \/ (k, v) ∈ items.
Proof.
  unfold upsert_items. revert m.
  induction items as [|[k' v'] items IH]; intros m; simpl; intros H.
  - now left.
  - destruct (IH _ H) as [H'|H']; [|right; set_solver].
    destruct (decide (k' = k)) as [->|Hne].
    + rewrite lookup_insert_eq in H'. right. set_solver.
    + rewrite lookup_insert_ne in H' by done. now left.
Qed.

Lemma lookup_delete_all (ids : list string) (m : gmap string (string * metadata)) (k : string) :
  foldr delete m ids !! k = if decide (k ∈ ids) then None else m !! k.
Proof.
  induction ids as [|i ids IH]; simpl.
  - reflexivity.
  - destruct (decide (i = k)) as [->|Hne].
    + rewrite lookup_delete_eq. now rewrite decide_True by set_solver.
    + rewrite lookup_delete_ne, IH by done.
      destruct (decide (k ∈ ids)).
      * now rewrite decide_True by set_solver.
      * now rewrite decide_False by set_solver.
Qed.

(** Deleting every stored id leaves the collection empty. *)
Lemma delete_all_ids (m : gmap string (string * metadata)) :
  foldr delete m (map_to_list m).*1 = ∅.
Proof.
  apply map_eq. intros k. rewrite lookup_delete_all, lookup_empty.
  destruct (decide _) as [|Hn]; [reflexivity|].
  destruct (m !! k) as [v|] eqn:E; [|reflexivity].
  destruct Hn. apply list_elem_of_fmap. exists (k, v). split; [reflexivity|].
  now apply elem_of_map_to_list.
Qed.

End Collection.

(** ** Index lifecycle and empty index *)

Section Lifecycle.
Import Explorer.

(** C6. [clear_index] returns the count held before clearing and leaves the
    collection empty (count 0). On a non-empty index it fetches the stored
    ids and deletes them in one call; on an empty index it only counts, so
    it changes nothing and returns 0. *)
Theorem clear_index_spec (self : explorer) :
  let r := clear_index self in
  r.1 = size (collection self)
  /\ collection r.2 = ∅
  /\ size (collection r.2) = 0%nat
  /\ is_cancelled r.2 = is_cancelled self
  /\ calls r.2 =
       (calls self ++
         if (size (collection self) =? 0)%nat then [CallCount]
         else [CallCount; CallGet; CallDelete (map_to_list (collection self)).*1])%list
  /\ (clear_index r.2).1 = 0%nat.
Proof.
  assert (forall s : explorer, collection s = ∅ -> (clear_index s).1 = 0%nat) as Hzero.
  { intros s Hs. unfold clear_index. cbn.
    rewrite Hs, map_size_empty. reflexivity. }
  assert (let r := clear_index self in
          r.1 = size (collection self) /\ collection r.2 = ∅ /\
          is_cancelled r.2 = is_cancelled self /\
          calls r.2 = (calls self ++
            if (size (collection self) =? 0)%nat then [CallCount]
            else [CallCount; CallGet; CallDelete (map_to_list (collection self)).*1])%list) as H.
  { unfold clear_index. cbn.
    destruct (size (collection self)) as [|n] eqn:Hsz; cbn.
    - apply map_size_empty_inv in Hsz. now rewrite Hsz.
    - destruct ((map_to_list (collection self)).*1) as [|i ids] eqn:Hids.
      + apply fmap_nil_inv, map_to_list_empty_iff in Hids.
        rewrite Hids, map_size_empty in Hsz. discriminate.
      + cbn. repeat split.
        * change (foldr delete (collection self) (i :: ids) = ∅).
          rewrite <- Hids. apply delete_all_ids.
        * now rewrite <- !List.app_assoc. }
  cbv zeta in *. destruct H as (H1 & H2 & H3 & H4).
  repeat split; try assumption.
  - rewrite H2. apply map_size_empty.
  - now apply Hzero.
Qed.

(** C8. On an empty index [search] returns the empty list whatever the
    query text, the result count and the filter are, and the only call it
    makes on the collection is the count: no query is issued. *)
Theorem search_empty_index (w : world) (query : string) (n_results : Z)
    (metadata_filters : option where_) (self : explorer) :
  size (collection self) = 0%nat ->
  search w query n_results metadata_filters self = (inl [], logged CallCount self)
  /\ calls (search w query n_results metadata_filters self).2 = (calls self ++ [CallCount])%list.
Proof.
  intros H. unfold search. cbn. rewrite H. cbn. split; reflexivity.
Qed.

End Lifecycle.

(** ** Remote content *)

Section RemoteContent.
Import RepoLoader Explorer.

Lemma stream_inl (max_size : Z) (body : list chunk_event) :
  forall content c,
    stream max_size content body = inl c ->
    (Z.of_nat (length content) <= max_size)%Z ->
    c = (content ++ body_bytes body)%list /\ (Z.of_nat (length c) <= max_size)%Z.
Proof.
  induction body as [|[chunk|] body IH]; intros content c; cbn [stream body_bytes flat_map].
  - intros [= <-] H. now rewrite List.app_nil_r.
  - destruct (Z.of_nat (length (content ++ chunk)) >? max_size)%Z eqn:E; [discriminate|].
    intros Hs _. apply IH in Hs as [-> Hl]; [|lia].
    split; [|exact Hl]. now rewrite <- List.app_assoc.
  - discriminate.
Qed.

Lemma get_remote_file_content_refused (w : world) (file_url : string) (max_size : Z)
    (content_length : option string) (body : list chunk_event) :
  (0 <= max_size)%Z ->
  requests_get w file_url = Response content_length body ->
  refused max_size content_length body ->
  exists e, get_remote_file_content w file_url max_size = inr e.
Proof.
  intros Hmax Hr Href. unfold get_remote_file_content. rewrite Hr.
  destruct content_length as [cl|].
  - destruct (negb (String.eqb cl EmptyString)) eqn:Hcl.
    + destruct (int_of_str cl) as [n|] eqn:Hn; [|now eexists].
      destruct (n >? max_size)%Z eqn:Hgt; [now eexists|].
      destruct (stream max_size [] body) as [c|e] eqn:Hs; [|now eexists].
      apply stream_inl in Hs as [-> Hl]; [|simpl; lia].
      destruct Href as [(h & n' & [= <-] & Hn' & Hbig)|[Hbig|Hnul]].
      * rewrite Hn in Hn'. injection Hn' as <-. lia.
      * simpl in Hl. lia.
      * assert (existsb (fun b => Byte.eqb b x00) (take 1024 ([] ++ body_bytes body)) = true) as ->;
          [|now eexists].
        apply existsb_exists. exists x00. split; [now apply list_elem_of_In|reflexivity].
    + apply negb_false_iff, String.eqb_eq in Hcl. subst cl.
      destruct (stream max_size [] body) as [c|e] eqn:Hs; [|now eexists].
      apply stream_inl in Hs as [-> Hl]; [|simpl; lia].
      destruct Href as [(h & n' & [= <-] & Hn' & Hbig)|[Hbig|Hnul]].
      * discriminate.
      * simpl in Hl. lia.
      * assert (existsb (fun b => Byte.eqb b x00) (take 1024 ([] ++ body_bytes body)) = true) as ->;
          [|now eexists].
        apply existsb_exists. exists x00. split; [now apply list_elem_of_In|reflexivity].
  - destruct (stream max_size [] body) as [c|e] eqn:Hs; [|now eexists].
    apply stream_inl in Hs as [-> Hl]; [|simpl; lia].
    destruct Href as [(h & n' & [=] & _)|[Hbig|Hnul]].
    + simpl in Hl. lia.
    + assert (existsb (fun b => Byte.eqb b x00) (take 1024 ([] ++ body_bytes body)) = true) as ->;
        [|now eexists].
      apply existsb_exists. exists x00. split; [now apply list_elem_of_In|reflexivity].
Qed.

End RemoteContent.

(** ** Generators under every environment *)

Section Generators.
Import Explorer.

Lemma outside_collection (b : bool) (s : explorer) : collection (outside b s) = collection s.
Proof. now destruct b. Qed.

Lemma outside_calls (b : bool) (s : explorer) : calls (outside b s) = calls s.
Proof. now destruct b. Qed.

Lemma outside_cancelled (b : bool) (s : explorer) :
  is_cancelled s = true -> outside b s = s.
Proof. destruct b, s; simpl; intros; now subst. Qed.

Lemma outside_false (s : explorer) : outside false s = s.
Proof. reflexivity. Qed.

Lemma upsert_batch_cancelled (items : list (string * metadata * string)) (s : explorer) :
  is_cancelled (upsert_batch items s) = is_cancelled s.
Proof. unfold upsert_batch. now destruct items. Qed.

(** The result of driving depends on the environment only from the current
    time on. *)
Lemma drive_ext (g : gen) :
  forall env env' t t',
    (forall i, env (t + i)%nat = env' (t' + i)%nat) ->
    drive env t g = drive env' t' g.
Proof.
  induction g as [s|e s|m s k IH|s k IH]; intros env env' t t' H; simpl.
  - reflexivity.
  - reflexivity.
  - pose proof (H 0%nat) as H0. rewrite !Nat.add_0_r in H0. rewrite <- H0.
    rewrite (IH _ env env' (S t) (S t')); [reflexivity|].
    intros i. specialize (H (S i)). now rewrite !Nat.add_succ_r in H.
  - pose proof (H 0%nat) as H0. rewrite !Nat.add_0_r in H0. rewrite <- H0.
    apply IH. intros i. specialize (H (S i)). now rewrite !Nat.add_succ_r in H.
Qed.

Lemma drive_never (g : gen) (t : nat) : drive never t g = drive never 0 g.
Proof. now apply drive_ext. Qed.

Lemma drive_never_yield (m : string) (s : explorer) (k : explorer -> gen) (t : nat) :
  drive never t (Yield m s k)
  = (m :: (drive never (S t) (k s)).1, (drive never (S t) (k s)).2).
Proof. reflexivity. Qed.

Lemma drive_never_poll (s : explorer) (k : explorer -> gen) (t : nat) :
  drive never t (Poll s k) = drive never (S t) (k s).
Proof. reflexivity. Qed.

Lemma always_drive (I : explorer -> Prop) (g : gen) :
  always I g -> forall env t, I (drive env t g).2.
Proof.
  induction 1 as [s H|m s k _ IH|s k _ IH]; intros env t; simpl; auto.
Qed.


Lemma always_weaken (I J : explorer -> Prop) (g : gen) :
  (forall s, I s -> J s) -> always I g -> always J g.
Proof.
  intros HIJ. induction 1 as [s H|m s k _ IH|s k _ IH]; constructor; auto.
Qed.

Lemma upserts_app (a b : list call) : upserts (a ++ b) = (upserts a + upserts b)%nat.
Proof. induction a as [|[] a IH]; simpl; lia. Qed.

Lemma upserts_upsert_batch (items : list (string * metadata * string)) (s : explorer) :
  (upserts (calls (upsert_batch items s)) <= upserts (calls s) + 1)%nat.
Proof.
  unfold upsert_batch. destruct items; simpl; [lia|].
  rewrite upserts_app. simpl. lia.
Qed.

(** With the flag set, [finish] reports the cancellation and the count. *)
Lemma finish_cancelled (s : explorer) (env : nat -> bool) (t : nat) :
  is_cancelled s = true ->
  drive env t (finish s) = ([cancelled_report (size (collection s))], logged CallCount s).
Proof.
  intros H. unfold finish. cbn.
  rewrite (outside_cancelled _ (logged CallCount s)) by assumption.
  cbn. rewrite H. cbn.
  now rewrite (outside_cancelled _ (logged CallCount s)) by assumption.
Qed.

Lemma finish_never (s : explorer) (t : nat) :
  is_cancelled s = false ->
  drive never t (finish s) = ([complete_report (size (collection s))], logged CallCount s).
Proof. intros H. unfold finish. cbn. rewrite H. reflexivity. Qed.

Section BatchLoop.
Context {A : Type} (process : list A -> explorer -> explorer) (batch_size : nat)
  (items : list A).
Hypothesis process_flag : forall batch s, is_cancelled (process batch s) = is_cancelled s.
Hypothesis process_upserts :
  forall batch s, (upserts (calls (process batch s)) <= upserts (calls s) + 1)%nat.

(** With the flag set at the top of the loop, no batch is processed. *)
Lemma batch_loop_cancelled (range : list nat) (s : explorer) (env : nat -> bool) (t : nat) :
  is_cancelled s = true ->
  drive env t (batch_loop process batch_size items range s)
  = ([cancelled_report (size (collection s))], logged CallCount s).
Proof.
  intros H. destruct range as [|i range]; cbn.
  - now apply finish_cancelled.
  - rewrite outside_cancelled, H by assumption. now apply finish_cancelled.
Qed.

Lemma after_batches_flag (range : list nat) (s : explorer) :
  is_cancelled (after_batches process batch_size items range s) = is_cancelled s.
Proof.
  unfold after_batches. revert s.
  induction range as [|i range IH]; intros s; simpl; [reflexivity|].
  now rewrite IH, process_flag.
Qed.

Lemma batch_loop_never (range : list nat) (s : explorer) (t : nat) :
  is_cancelled s = false ->
  drive never t (batch_loop process batch_size items range s)
  = ((List.map (fun i => status_message i batch_size (length items)) range
       ++ [complete_report
             (size (collection (after_batches process batch_size items range s)))])%list,
     logged CallCount (after_batches process batch_size items range s)).
Proof.
  revert s t. induction range as [|i range IH]; intros s t H.
  - now apply finish_never.
  - cbn. rewrite H. cbn.
    rewrite IH by now rewrite process_flag.
    reflexivity.
Qed.

(** An invariant of the collection that every batch keeps holds at the end
    of the loop, however the run is cancelled. *)
Lemma batch_loop_always (J : gmap string (string * metadata) -> Prop)
    (range : list nat) (s : explorer) :
  (forall i s, J (collection s) ->
     J (collection (process (take batch_size (drop i items)) s))) ->
  J (collection s) ->
  always (fun s => J (collection s)) (batch_loop process batch_size items range s).
Proof.
  intros Hstep. assert (forall s, J (collection s) -> always (fun s => J (collection s)) (finish s)) as Hfin.
  { intros s' Hs. unfold finish. cbn. apply always_poll. intros b.
    destruct (is_cancelled _); apply always_yield; intros b'; apply always_stop;
      now rewrite !outside_collection. }
  revert s. induction range as [|i range IH]; intros s Hs; cbn.
  - now apply Hfin.
  - apply always_poll. intros b. destruct (is_cancelled _).
    + apply Hfin. now rewrite outside_collection.
    + apply always_yield. intros b'. apply IH, Hstep.
      now rewrite !outside_collection.
Qed.

End BatchLoop.

(** *** Once the flag is set *)

Lemma resumption_stop_inv (s0 s : explorer) (k : explorer -> gen) :
  resumption (Stop s0) s k -> False.
Proof. inversion 1. Qed.

Lemma resumption_raise_inv (e : pyexn) (s0 s : explorer) (k : explorer -> gen) :
  resumption (Raise e s0) s k -> False.
Proof. inversion 1. Qed.

Lemma resumption_yield_inv (m : string) (s0 s : explorer) (k0 k : explorer -> gen) :
  resumption (Yield m s0 k0) s k ->
  (s = s0 /\ k = k0) \/ exists b, resumption (k0 (outside b s0)) s k.
Proof. inversion 1; subst; [now left | right; now exists b]. Qed.

Lemma resumption_poll_inv (s0 s : explorer) (k0 k : explorer -> gen) :
  resumption (Poll s0 k0) s k ->
  (s = s0 /\ k = k0) \/ exists b, resumption (k0 (outside b s0)) s k.
Proof. inversion 1; subst; [now left | right; now exists b]. Qed.

Lemma upserts_logged_count (s : explorer) :
  upserts (calls (logged CallCount s)) = upserts (calls s).
Proof. simpl. rewrite upserts_app. simpl. lia. Qed.

Lemma stops_stop (scan : bool) (s : explorer) : stops_when_cancelled scan s Stop.
Proof. intros env t. cbn. repeat split; [lia | now left]. Qed.

Lemma finish_resumptions (scan : bool) (s0 s : explorer) (k : explorer -> gen) :
  resumption (finish s0) s k -> stops_when_cancelled scan s k.
Proof.
  unfold finish. cbn. intros [[-> ->]|[b H]]%resumption_poll_inv.
  - intros env t. cbn. repeat split.
    + rewrite outside_calls. cbn. rewrite upserts_app. simpl. lia.
    + now rewrite outside_cancelled.
    + right; left. now rewrite outside_collection.
  - destruct (is_cancelled _);
      apply resumption_yield_inv in H as [[-> ->]|[b' H]];
      try apply stops_stop; now apply resumption_stop_inv in H.
Qed.

Section BatchLoopCancel.
Context {A : Type} (process : list A -> explorer -> explorer) (batch_size : nat)
  (items : list A).
Hypothesis process_flag : forall batch s, is_cancelled (process batch s) = is_cancelled s.
Hypothesis process_upserts :
  forall batch s, (upserts (calls (process batch s)) <= upserts (calls s) + 1)%nat.

Lemma batch_loop_stops (range : list nat) (s0 : explorer) :
  is_cancelled s0 = true ->
  forall env t,
    let r := drive env t (batch_loop process batch_size items range s0) in
    upserts (calls r.2) = upserts (calls s0)
    /\ is_cancelled r.2 = true
    /\ r.1 = [cancelled_report (size (collection r.2))].
Proof.
  intros H env t. cbv zeta.
  rewrite (batch_loop_cancelled process batch_size items range s0 env t H).
  cbn. rewrite upserts_app. simpl. repeat split; [lia | assumption].
Qed.

Lemma batch_loop_resumptions (scan : bool) (range : list nat) (s0 s : explorer)
    (k : explorer -> gen) :
  resumption (batch_loop process batch_size items range s0) s k ->
  stops_when_cancelled scan s k.
Proof.
  revert s0. induction range as [|i range IH]; intros s0; cbn [batch_loop].
  - apply finish_resumptions.
  - intros [[-> ->]|[b H]]%resumption_poll_inv.
    + intros env t. cbv beta zeta. cbn [is_cancelled cancel_indexing].
      rewrite (finish_cancelled (cancel_indexing s0) env t eq_refl). cbn.
      rewrite upserts_app. simpl. repeat split; [lia | now right; left].
    + cbv beta in H. destruct (is_cancelled (outside b s0)).
      * revert H. apply finish_resumptions.
      * apply resumption_yield_inv in H as [[-> ->]|[b' H]]; [|revert H; apply IH].
        intros env t.
        destruct (batch_loop_stops range
                    (process (take batch_size (drop i items)) (cancel_indexing (outside b s0)))
                    ltac:(now rewrite process_flag) env t) as (Hu & Hf & Hm).
        cbv beta zeta in *. repeat split; [|assumption|now right; left].
        rewrite Hu.
        pose proof (process_upserts (take batch_size (drop i items))
                      (cancel_indexing (outside b s0))) as Hp.
        exact Hp.
Qed.

End BatchLoopCancel.

(** *** The local indexer *)

Lemma process_local_flag (w : world) (root_path : string) (batch : list string) (s : explorer) :
  is_cancelled (process_local_batch w root_path batch s) = is_cancelled s.
Proof. apply upsert_batch_cancelled. Qed.

Lemma process_local_upserts (w : world) (root_path : string) (batch : list string) (s : explorer) :
  (upserts (calls (process_local_batch w root_path batch s)) <= upserts (calls s) + 1)%nat.
Proof. apply upserts_upsert_batch. Qed.

Lemma after_scan_cancelled (w : world) (root_path : string) (all_paths : list string)
    (s : explorer) (env : nat -> bool) (t : nat) :
  is_cancelled s = true ->
  drive env t (local_after_scan w root_path all_paths s)
  = ([cancelled_scan_report (size (collection s))], logged CallCount s).
Proof.
  intros H. unfold local_after_scan. cbn [drive].
  rewrite (outside_cancelled _ s H), H. cbn.
  now rewrite (outside_cancelled _ (logged CallCount s)) by assumption.
Qed.

Lemma local_scan_cancelled (w : world) (root_path : string)
    (triples : list (string * list string * list string)) (all_paths : list string)
    (s : explorer) (env : nat -> bool) (t : nat) :
  is_cancelled s = true ->
  drive env t (local_scan w root_path triples all_paths s)
  = ([cancelled_scan_report (size (collection s))], logged CallCount s).
Proof.
  intros H. destruct triples as [|[[r d] f] triples]; cbn [local_scan].
  - now apply after_scan_cancelled.
  - cbn [drive]. rewrite (outside_cancelled _ s H), H. now apply after_scan_cancelled.
Qed.

Lemma stops_scan_report (s s' : explorer) (k : explorer -> gen) :
  (forall env t, drive env t (k (cancel_indexing s))
                 = ([cancelled_scan_report (size (collection s'))], logged CallCount s')) ->
  calls s' = calls s -> is_cancelled s' = true ->
  stops_when_cancelled true s k.
Proof.
  intros H Hc Hf env t. cbv zeta. rewrite H. cbn.
  rewrite upserts_app, Hc. simpl. repeat split; [lia | assumption | now right; right].
Qed.

Lemma after_scan_resumptions (w : world) (root_path : string) (all_paths : list string)
    (s0 s : explorer) (k : explorer -> gen) :
  resumption (local_after_scan w root_path all_paths s0) s k ->
  stops_when_cancelled true s k.
Proof.
  unfold local_after_scan. intros [[-> ->]|[b H]]%resumption_poll_inv.
  - apply (stops_scan_report s0 (cancel_indexing s0)); [|reflexivity..].
    intros env t. cbn.
    now rewrite (outside_cancelled _ (logged CallCount (cancel_indexing s0))).
  - cbv beta in H. destruct (is_cancelled (outside b s0)).
    + cbn in H. apply resumption_yield_inv in H as [[-> ->]|[b' H]];
        [apply stops_stop | now apply resumption_stop_inv in H].
    + apply resumption_yield_inv in H as [[-> ->]|[b' H]].
      * intros env t.
        destruct (batch_loop_stops (process_local_batch w root_path) local_batch_size all_paths
                    (range_step (length all_paths) local_batch_size)
                    (cancel_indexing (outside b s0)) eq_refl env t) as (Hu & Hf & Hm).
        cbv beta zeta in *. unfold local_batches.
        repeat split; [rewrite Hu; cbn; lia | assumption | now right; left].
      * unfold local_batches in H.
        eapply batch_loop_resumptions; [apply process_local_flag | apply process_local_upserts | exact H].
Qed.

Lemma local_scan_resumptions (w : world) (root_path : string)
    (triples : list (string * list string * list string)) (all_paths : list string)
    (s0 s : explorer) (k : explorer -> gen) :
  resumption (local_scan w root_path triples all_paths s0) s k ->
  stops_when_cancelled true s k.
Proof.
  revert all_paths s0.
  induction triples as [|[[r d] f] triples IH]; intros all_paths s0; cbn [local_scan].
  - apply after_scan_resumptions.
  - intros [[-> ->]|[b H]]%resumption_poll_inv.
    + apply (stops_scan_report s0 (cancel_indexing s0)); [|reflexivity..].
      intros env t. cbv beta. cbn [is_cancelled cancel_indexing].
      now apply after_scan_cancelled.
    + cbv beta in H. destruct (is_cancelled (outside b s0)).
      * revert H. apply after_scan_resumptions.
      * revert H. apply IH.
Qed.

Lemma local_resumptions (w : world) (root_path : string) (s0 s : explorer)
    (k : explorer -> gen) :
  resumption (_index_local_directory w root_path s0) s k -> stops_when_cancelled true s k.
Proof.
  unfold _index_local_directory. destruct (negb _).
  - intros [[-> ->]|[b H]]%resumption_yield_inv;
      [apply stops_stop | now apply resumption_stop_inv in H].
  - intros [[-> ->]|[b H]]%resumption_yield_inv.
    + apply (stops_scan_report s0 (cancel_indexing s0)); [|reflexivity..].
      intros env t. now apply local_scan_cancelled.
    + revert H. apply local_scan_resumptions.
Qed.

(** *** The repository indexer *)

Lemma process_repo_flag (w : world) (repo_url base : string) (batch : list file_meta)
    (s : explorer) :
  is_cancelled (process_repo_batch w repo_url base batch s) = is_cancelled s.
Proof. apply upsert_batch_cancelled. Qed.

Lemma process_repo_upserts (w : world) (repo_url base : string) (batch : list file_meta)
    (s : explorer) :
  (upserts (calls (process_repo_batch w repo_url base batch s)) <= upserts (calls s) + 1)%nat.
Proof. apply upserts_upsert_batch. Qed.

Lemma stops_repo (w : world) (repo_url : string) (s : explorer) (k : explorer -> gen) :
  stops_when_cancelled false s k -> repo_stops_when_cancelled w repo_url s k.
Proof.
  intros H env t. destruct (H env t) as (Hu & Hf & [Hm|[Hm|[[=] _]]]); cbv zeta.
  all: repeat split; try assumption; tauto.
Qed.

(** Without an error, [get_repo_files] gives a list and a base url. *)
Lemma get_repo_files_listed (w : world) (url : string) (files : option (list file_meta))
    (base error : option string) :
  RepoLoader.get_repo_files w url = (files, base, error) ->
  RepoLoader.truthy error = false ->
  exists listed base_url, files = Some listed /\ base = Some base_url.
Proof.
  unfold RepoLoader.get_repo_files. intros H Ht.
  repeat case_match; simplify_eq; try discriminate Ht; try congruence; eauto.
Qed.

Lemma get_repo_files_clean (w : world) (url : string) (files : option (list file_meta))
    (base error : option string) :
  RepoLoader.get_repo_files w url = (files, base, error) ->
  RepoLoader.truthy error = false -> error = None.
Proof.
  unfold RepoLoader.get_repo_files. intros H Ht.
  repeat case_match; simplify_eq; try discriminate Ht; try congruence; eauto.
Qed.

(** With an error there is no list and no base url, and the message is not
    empty. *)
Lemma get_repo_files_failed (w : world) (url : string) (files : option (list file_meta))
    (base error : option string) :
  RepoLoader.get_repo_files w url = (files, base, error) ->
  RepoLoader.truthy error = true ->
  files = None /\ base = None /\ exists e, error = Some e /\ e <> EmptyString.
Proof.
  intros H Ht.
  assert (exists e, error = Some e /\ e <> EmptyString) as He.
  { destruct error as [e|]; [|discriminate Ht]. exists e. split; [reflexivity|].
    intros ->. discriminate Ht. }
  revert H. unfold RepoLoader.get_repo_files.
  repeat case_match; intros Hr; simplify_eq; try discriminate Ht; auto.
Qed.

Lemma repo_resumptions (w : world) (repo_url : string) (s0 s : explorer)
    (k : explorer -> gen) :
  resumption (_index_repository w repo_url s0) s k ->
  repo_stops_when_cancelled w repo_url s k.
Proof.
  unfold _index_repository.
  destruct (RepoLoader.get_repo_files w repo_url) as [[files base] error] eqn:E.
  intros [[-> ->]|[b H]]%resumption_yield_inv.
  - intros env t. cbv beta zeta. destruct (RepoLoader.truthy error) eqn:Et.
    + destruct (get_repo_files_failed w repo_url files base error E Et)
        as (-> & -> & e & -> & He).
      cbn. rewrite outside_calls. cbn.
      repeat split; [lia | now rewrite outside_cancelled |].
      do 3 right. now exists e.
    + pose proof (get_repo_files_clean w repo_url files base error E Et) as ->.
      destruct (get_repo_files_listed w repo_url files base error E Et)
        as (listed & base_url & -> & ->).
      rename listed into files, base_url into base.
      cbn [drive fst snd default from_option id].
      rewrite (outside_cancelled _ (cancel_indexing s0) eq_refl).
      unfold repo_batches.
      rewrite (batch_loop_cancelled _ _ _ _ (cancel_indexing s0) env (S t) eq_refl).
      cbn. rewrite upserts_app. simpl.
      repeat split; [lia|]. do 2 right. left. now exists files, base.
  - cbv beta in H. destruct (RepoLoader.truthy error) eqn:Et.
    + apply resumption_yield_inv in H as [[-> ->]|[b' H]];
        [apply stops_repo, stops_stop | now apply resumption_stop_inv in H].
    + destruct (get_repo_files_listed w repo_url files base error E Et)
        as (listed & base_url & -> & ->).
      rename listed into files, base_url into base.
      cbn [default from_option id] in H.
      apply stops_repo.
      apply resumption_yield_inv in H as [[-> ->]|[b' H]].
      * intros env t.
        destruct (batch_loop_stops (process_repo_batch w repo_url base) repo_batch_size files
                    (range_step (length files) repo_batch_size)
                    (cancel_indexing (outside b s0)) eq_refl env t) as (Hu & Hf & Hm).
        cbv beta zeta in *. unfold repo_batches.
        repeat split; [rewrite Hu; cbn; lia | assumption | now right; left].
      * unfold repo_batches in H.
        eapply batch_loop_resumptions;
          [apply process_repo_flag | apply process_repo_upserts | exact H].
Qed.

(** *** Runs that nothing cancels *)

(** The batches of [range(0, len(items), batch_size)] cover the items. *)
Lemma chunks_cover {A : Type} (b : nat) (n : nat) :
  forall l : list A,
    (length l <= n * b)%nat ->
    concat (List.map (fun k => take b (drop (k * b) l)) (seq 0 n)) = l.
Proof.
  induction n as [|n IH]; intros l Hl.
  - destruct l; [reflexivity | simpl in Hl; lia].
  - rewrite <- cons_seq, <- seq_shift. cbn [List.map concat].
    rewrite List.map_map. change (0 * b)%nat with 0%nat. rewrite drop_0.
    rewrite (List.map_ext _ (fun k => take b (drop (k * b) (drop b l)))).
    + rewrite IH; [apply take_drop|]. rewrite length_drop. lia.
    + intros k. rewrite drop_drop. reflexivity.
Qed.

Lemma range_step_chunks {A : Type} (b : nat) (l : list A) :
  (0 < b)%nat ->
  concat (List.map (fun i => take b (drop i l)) (range_step (length l) b)) = l.
Proof.
  intros Hb. unfold range_step. rewrite List.map_map.
  apply chunks_cover.
  pose proof (Nat.div_mod_eq (length l + b - 1) b) as H.
  pose proof (Nat.mod_upper_bound (length l + b - 1) b ltac:(lia)) as H'.
  nia.
Qed.

Lemma zip_fst_maps {A B C D : Type} (f : A -> B) (g : A -> C) (h : A -> D) (l : list A) :
  (zip (List.map f l) (zip (List.map g l) (List.map h l))).*1 = List.map f l.
Proof.
  apply fst_zip. rewrite length_zip, !List.length_map. lia.
Qed.

Lemma upsert_batch_dom (items : list (string * metadata * string)) (s : explorer) :
  dom (collection (upsert_batch items s)) = dom (collection s) ∪ list_to_set items.*2.
Proof.
  unfold upsert_batch. destruct items as [|it items]; [set_solver|].
  remember (it :: items) as l. destruct (List.map _ l) eqn:E; [subst; discriminate|].
  rewrite <- E. cbn [collection collection_upsert].
  now rewrite upsert_items_dom, zip_fst_maps.
Qed.

Section AfterBatches.
Context {A : Type} (process : list A -> explorer -> explorer) (batch_size : nat)
  (items : list A) (ids_of : list A -> gset string).
Hypothesis process_dom :
  forall batch s, dom (collection (process batch s)) = dom (collection s) ∪ ids_of batch.
Hypothesis ids_of_nil : ids_of [] = ∅.
Hypothesis ids_of_app : forall l1 l2, ids_of (l1 ++ l2) = ids_of l1 ∪ ids_of l2.

Lemma after_batches_dom (range : list nat) (s : explorer) :
  dom (collection (after_batches process batch_size items range s))
  = dom (collection s)
    ∪ ids_of (concat (List.map (fun i => take batch_size (drop i items)) range)).
Proof.
  unfold after_batches. revert s.
  induction range as [|i range IH]; intros s; simpl.
  - rewrite ids_of_nil. set_solver.
  - rewrite IH, process_dom, ids_of_app. set_solver.
Qed.

Lemma after_all_batches_dom (s : explorer) :
  (0 < batch_size)%nat ->
  dom (collection (after_batches process batch_size items
                     (range_step (length items) batch_size) s))
  = dom (collection s) ∪ ids_of items.
Proof. intros Hb. now rewrite after_batches_dom, range_step_chunks. Qed.

End AfterBatches.

Lemma local_ids_app (w : world) (root_path : string) (l1 l2 : list string) :
  local_ids w root_path (l1 ++ l2) = local_ids w root_path l1 ∪ local_ids w root_path l2.
Proof. unfold local_ids. now rewrite omap_app, fmap_app, list_to_set_app_L. Qed.

Lemma repo_ids_app (w : world) (repo_url base : string) (l1 l2 : list file_meta) :
  repo_ids w repo_url base (l1 ++ l2)
  = repo_ids w repo_url base l1 ∪ repo_ids w repo_url base l2.
Proof. unfold repo_ids. now rewrite omap_app, fmap_app, list_to_set_app_L. Qed.

Lemma local_scan_never (w : world) (root_path : string)
    (triples : list (string * list string * list string)) :
  forall (all_paths : list string) (s : explorer) (t : nat),
    is_cancelled s = false ->
    drive never t (local_scan w root_path triples all_paths s)
    = drive never 0 (local_after_scan w root_path (all_paths ++ scanned_paths triples) s).
Proof.
  induction triples as [|[[r d] f] triples IH]; intros all_paths s t H; cbn [local_scan].
  - unfold scanned_paths. cbn [flat_map]. rewrite List.app_nil_r. apply drive_never.
  - rewrite drive_never_poll, H.
    rewrite IH by assumption. unfold scanned_paths. cbn [flat_map].
    now rewrite <- List.app_assoc.
Qed.

(** The stream and the explorer at the end of a local run to the end. *)
Lemma local_never (w : world) (root_path : string) (s : explorer) (t : nat) :
  os_path_isdir w root_path = true -> is_cancelled s = false ->
  let paths := local_paths w root_path in
  let range := range_step (length paths) local_batch_size in
  let s' := after_batches (process_local_batch w root_path) local_batch_size paths range s in
  drive never t (_index_local_directory w root_path s)
  = ("Scanning directories..." :: scan_complete_report (length paths) ::
       (List.map (fun i => status_message i local_batch_size (length paths)) range
        ++ [complete_report (size (collection s'))])%list,
     logged CallCount s').
Proof.
  intros Hd H. cbv zeta. unfold _index_local_directory. rewrite Hd. cbn [negb].
  rewrite drive_never_yield, local_scan_never by assumption. cbn [List.app].
  unfold local_after_scan. rewrite drive_never_poll, H, drive_never_yield.
  unfold local_batches.
  rewrite (batch_loop_never _ _ _ (process_local_flag w root_path)) by assumption.
  reflexivity.
Qed.

(** The stream and the explorer at the end of a repository run to the end. *)
Lemma repo_never (w : world) (repo_url : string) (s : explorer) (t : nat)
    (files : list file_meta) (base : string) (error : option string) :
  RepoLoader.get_repo_files w repo_url = (Some files, Some base, error) ->
  RepoLoader.truthy error = false ->
  is_cancelled s = false ->
  let range := range_step (length files) repo_batch_size in
  let s' := after_batches (process_repo_batch w repo_url base) repo_batch_size files range s in
  drive never t (_index_repository w repo_url s)
  = ("Fetching repository file list..." :: found_report (length files) ::
       (List.map (fun i => status_message i repo_batch_size (length files)) range
        ++ [complete_report (size (collection s'))])%list,
     logged CallCount s').
Proof.
  intros E Et H. cbv zeta. unfold _index_repository.
  rewrite drive_never_yield, E, Et, drive_never_yield. unfold repo_batches.
  rewrite (batch_loop_never _ _ _ (process_repo_flag w repo_url base)) by assumption.
  reflexivity.
Qed.

Lemma process_local_dom (w : world) (root_path : string) (batch : list string) (s : explorer) :
  dom (collection (process_local_batch w root_path batch s))
  = dom (collection s) ∪ local_ids w root_path batch.
Proof. apply upsert_batch_dom. Qed.

Lemma process_repo_dom (w : world) (repo_url base : string) (batch : list file_meta)
    (s : explorer) :
  dom (collection (process_repo_batch w repo_url base batch s))
  = dom (collection s) ∪ repo_ids w repo_url base batch.
Proof. apply upsert_batch_dom. Qed.

(** A run to the end: its stream, the ids in the collection afterwards, and
    the flag. *)
Lemma run_to_end_spec (w : world) (path_or_url : string) (s : explorer) :
  let r := run_to_end w path_or_url s in
  r.1 = expected_stream w path_or_url (size (collection r.2))
  /\ dom (collection r.2) = dom (collection s) ∪ indexed_ids w path_or_url
  /\ is_cancelled r.2 = false.
Proof.
  cbv zeta. unfold run_to_end, index_directory, expected_stream, indexed_ids.
  fold (is_repository path_or_url).
  set (s0 := {| collection := collection s; is_cancelled := false; calls := calls s |}).
  destruct (is_repository path_or_url).
  - destruct (RepoLoader.get_repo_files w path_or_url) as [[files base] error] eqn:E.
    destruct (RepoLoader.truthy error) eqn:Et;
      [|destruct (get_repo_files_listed w path_or_url files base error E Et)
          as (listed & base_url & -> & ->)].
    + unfold _index_repository. rewrite drive_never_yield, E, Et.
      cbn. destruct files, base; repeat split; set_solver.
    + rename listed into files, base_url into base.
      rewrite (repo_never w path_or_url s0 0 files base error E Et eq_refl).
      cbn [fst snd collection logged].
      rewrite (after_all_batches_dom _ _ _ (repo_ids w path_or_url base)
                 (process_repo_dom w path_or_url base) eq_refl
                 (repo_ids_app w path_or_url base)) by (unfold repo_batch_size; lia).
      repeat split. cbn [is_cancelled logged].
      now rewrite after_batches_flag by apply process_repo_flag.
  - destruct (os_path_isdir w path_or_url) eqn:Hd.
    + rewrite (local_never w path_or_url s0 0 Hd eq_refl).
      cbn [fst snd collection logged].
      rewrite (after_all_batches_dom _ _ _ (local_ids w path_or_url)
                 (process_local_dom w path_or_url) eq_refl
                 (local_ids_app w path_or_url)) by (unfold local_batch_size; lia).
      repeat split. cbn [is_cancelled logged].
      now rewrite after_batches_flag by apply process_local_flag.
    + unfold _index_local_directory. rewrite Hd. cbn. repeat split; set_solver.
Qed.

Lemma repo_item_clock (w : world) (clock : string -> float) (repo_url base : string)
    (f : file_meta) :
  snd <$> repo_item (with_clock w clock) repo_url base f = snd <$> repo_item w repo_url base f.
Proof.
  unfold repo_item.
  change (RepoLoader.get_remote_file_content (with_clock w clock))
    with (RepoLoader.get_remote_file_content w).
  change (urljoin_quote (with_clock w clock)) with (urljoin_quote w).
  now destruct (RepoLoader.get_remote_file_content _ _ _).
Qed.

Lemma indexed_ids_clock (w : world) (clock : string -> float) (path_or_url : string) :
  indexed_ids (with_clock w clock) path_or_url = indexed_ids w path_or_url.
Proof.
  unfold indexed_ids.
  change (RepoLoader.get_repo_files (with_clock w clock)) with (RepoLoader.get_repo_files w).
  change (os_path_isdir (with_clock w clock)) with (os_path_isdir w).
  change (local_ids (with_clock w clock)) with (local_ids w).
  change (local_paths (with_clock w clock)) with (local_paths w).
  destruct (is_repository path_or_url); [|reflexivity].
  destruct (RepoLoader.get_repo_files w path_or_url) as [[[files|] [base|]] error];
    try reflexivity.
  destruct (RepoLoader.truthy error); [reflexivity|].
  unfold repo_ids. f_equal. rewrite !list_fmap_omap.
  apply list_omap_ext, Forall2_same_length_lookup. split; [reflexivity|].
  intros i f f' Hf Hf'. rewrite Hf in Hf'. injection Hf' as <-. apply repo_item_clock.
Qed.

Lemma expected_stream_clock (w : world) (clock : string -> float) (path_or_url : string)
    (n : nat) :
  expected_stream (with_clock w clock) path_or_url n = expected_stream w path_or_url n.
Proof. reflexivity. Qed.

Lemma local_item_id (w : world) (root_path path_str : string)
    (item : string * metadata * string) :
  local_item w root_path path_str = Some item ->
  item.2 = "local::" ++ path_str /\ source_type item.1.2 = "local"
  /\ full_path item.1.2 = path_str.
Proof.
  unfold local_item. destruct (os_stat w path_str); [|discriminate].
  intros [= <-]. repeat split.
Qed.

Lemma repo_item_id (w : world) (url base : string) (f : file_meta)
    (item : string * metadata * string) :
  repo_item w url base f = Some item ->
  item.2 = "repo::" ++ url ++ "::" ++ fm_path f
  /\ source_type item.1.2 = "repository"
  /\ relative_path item.1.2 = fm_path f
  /\ repo_url item.1.2 = Some url.
Proof.
  unfold repo_item. destruct (RepoLoader.get_remote_file_content _ _ _); [|discriminate].
  intros [= <-]. repeat split.
Qed.

(** C3. The id of an item is the source-type prefix composed with the path
    (and with the repository URL for a remote item). So when a source is
    indexed to the end and then, unchanged, indexed again (at whatever time
    of day), the second run adds the same ids to the collection, the set
    of stored ids and the item count stay what they were after the first
    run, and both runs give the same status stream, with the same count in
    the last message. *)
Theorem reindexing_is_idempotent (w : world) (clock : string -> float)
    (path_or_url : string) (s : explorer) :
  let r1 := run_to_end w path_or_url s in
  let r2 := run_to_end (with_clock w clock) path_or_url r1.2 in
  dom (collection r1.2) = dom (collection s) ∪ indexed_ids w path_or_url
  /\ dom (collection r2.2) = dom (collection r1.2) ∪ indexed_ids w path_or_url
  /\ dom (collection r2.2) = dom (collection r1.2)
  /\ size (collection r2.2) = size (collection r1.2)
  /\ r2.1 = r1.1
  /\ (forall root_path path_str item,
        local_item w root_path path_str = Some item -> item.2 = "local::" ++ path_str)
  /\ (forall repo_url base f item,
        repo_item w repo_url base f = Some item ->
        item.2 = "repo::" ++ repo_url ++ "::" ++ fm_path f).
Proof.
  cbv zeta.
  destruct (run_to_end_spec w path_or_url s) as (Hm1 & Hd1 & _).
  destruct (run_to_end_spec (with_clock w clock) path_or_url (run_to_end w path_or_url s).2)
    as (Hm2 & Hd2 & _).
  rewrite indexed_ids_clock in Hd2. rewrite expected_stream_clock in Hm2.
  assert (dom (collection (run_to_end (with_clock w clock) path_or_url
                             (run_to_end w path_or_url s).2).2)
          = dom (collection (run_to_end w path_or_url s).2)) as Hdom.
  { rewrite Hd2, Hd1. set_solver. }
  assert (size (collection (run_to_end (with_clock w clock) path_or_url
                              (run_to_end w path_or_url s).2).2)
          = size (collection (run_to_end w path_or_url s).2)) as Hsize.
  { now rewrite <- !size_dom, Hdom. }
  repeat split; try assumption.
  - now rewrite Hm2, Hm1, Hsize.
  - intros root_path path_str item H. now apply local_item_id in H.
  - intros repo_url base f item H. now apply repo_item_id in H.
Qed.

(** No message of a run to the end speaks of a cancellation. *)
Lemma expected_stream_not_cancelled (w : world) (path_or_url : string) (n : nat) :
  Forall (fun m => String.prefix "Build cancelled" m = false)
    (expected_stream w path_or_url n).
Proof.
  unfold expected_stream. destruct (is_repository path_or_url).
  - constructor; [reflexivity|].
    destruct (RepoLoader.get_repo_files w path_or_url) as [[files base] error].
    destruct (RepoLoader.truthy error); [repeat constructor|].
    destruct files as [files|], base as [base|]; try constructor; [reflexivity|].
    apply Forall_app; split; [|repeat constructor].
    apply List.Forall_forall. intros m (i & <- & _)%List.in_map_iff. reflexivity.
  - destruct (os_path_isdir w path_or_url); [|repeat constructor].
    do 2 (constructor; [reflexivity|]).
    apply Forall_app; split; [|repeat constructor].
    apply List.Forall_forall. intros m (i & <- & _)%List.in_map_iff. reflexivity.
Qed.

(** C10. [index_directory] starts by resetting the flag, so the generator
    does the same whether or not [cancel_indexing] was called before its
    first pull: pulled to the end with no further cancel it runs every
    batch, ends with the flag unset, and none of its messages reports a
    cancellation. A cancel issued once the run has begun, at any of its
    suspensions, does take effect: at most the batch in flight is still
    upserted and the run ends with the flag set. *)
Theorem index_directory_resets_flag (w : world) (path_or_url : string) (s : explorer) :
  index_directory w path_or_url (cancel_indexing s) = index_directory w path_or_url s
  /\ (let r := run_to_end w path_or_url (cancel_indexing s) in
      r = run_to_end w path_or_url s
      /\ is_cancelled r.2 = false
      /\ dom (collection r.2) = dom (collection s) ∪ indexed_ids w path_or_url
      /\ r.1 = expected_stream w path_or_url (size (collection r.2))
      /\ Forall (fun m => String.prefix "Build cancelled" m = false) r.1)
  /\ (forall s' k env t,
        resumption (index_directory w path_or_url (cancel_indexing s)) s' k ->
        let r := drive env t (k (cancel_indexing s')) in
        is_cancelled r.2 = true
        /\ (upserts (calls r.2) <= upserts (calls s') + 1)%nat).
Proof.
  split; [reflexivity|]. split.
  - cbv zeta. destruct (run_to_end_spec w path_or_url s) as (Hm & Hd & Hf).
    change (run_to_end w path_or_url (cancel_indexing s)) with (run_to_end w path_or_url s).
    repeat split; try assumption.
    rewrite Hm. apply expected_stream_not_cancelled.
  - intros s' k env t H. unfold index_directory in H.
    destruct (_ || _).
    + destruct (repo_resumptions w path_or_url _ s' k H env t) as (Hu & Hf & _).
      now split.
    + destruct (local_resumptions w path_or_url _ s' k H env t) as (Hu & Hf & _).
      now split.
Qed.

(** *** Invariants of the collection under every environment *)

(** Neither the outside nor the logging touches the content. *)
Ltac same_collection :=
  repeat first [rewrite outside_collection | progress (cbn [collection logged])].

Lemma zip_items_elem {A : Type} (f : A -> string) (g : A -> string) (h : A -> metadata)
    (l : list A) (k : string) (v : string * metadata) :
  (k, v) ∈ zip (List.map f l) (zip (List.map g l) (List.map h l)) ->
  exists x, x ∈ l /\ k = f x /\ v = (g x, h x).
Proof.
  induction l as [|x l IH]; simpl; intros H.
  - now apply elem_of_nil in H.
  - apply elem_of_cons in H as [[= -> ->]|H].
    + exists x. split; [left|done].
    + destruct (IH H) as (y & Hy & -> & ->). exists y. split; [now right|done].
Qed.

Lemma upsert_batch_lookup (items : list (string * metadata * string)) (s : explorer)
    (id : string) (v : string * metadata) :
  collection (upsert_batch items s) !! id = Some v ->
  collection s !! id = Some v \/ (v.1, v.2, id) ∈ items.
Proof.
  unfold upsert_batch. destruct (List.map _ items) eqn:E; [now left|].
  rewrite <- E. cbn [collection collection_upsert].
  intros [H|H]%upsert_items_lookup; [now left|right].
  apply zip_items_elem in H as ([[doc meta] id'] & Hx & -> & ->). exact Hx.
Qed.

Lemma old_or_refl (m0 : gmap string (string * metadata))
    (P : string -> string * metadata -> Prop) : old_or m0 P m0.
Proof. intros id v H. now left. Qed.

Lemma old_or_upsert_batch (m0 : gmap string (string * metadata))
    (P : string -> string * metadata -> Prop)
    (items : list (string * metadata * string)) (s : explorer) :
  (forall it, it ∈ items -> P it.2 (it.1.1, it.1.2)) ->
  old_or m0 P (collection s) -> old_or m0 P (collection (upsert_batch items s)).
Proof.
  intros HP Hs id v [H|H]%upsert_batch_lookup; [now apply Hs|].
  right. apply HP in H. now destruct v.
Qed.

Lemma finish_always (J : gmap string (string * metadata) -> Prop) (s : explorer) :
  J (collection s) -> always (fun s => J (collection s)) (finish s).
Proof.
  intros Hs. unfold finish. cbn. apply always_poll. intros b.
  destruct (is_cancelled _); apply always_yield; intros b'; apply always_stop;
    now same_collection.
Qed.

Lemma local_always (J : gmap string (string * metadata) -> Prop) (Q : string -> Prop)
    (w : world) (root_path : string) (s : explorer) :
  (forall batch s, Forall Q batch -> J (collection s) ->
     J (collection (process_local_batch w root_path batch s))) ->
  Forall Q (local_paths w root_path) ->
  J (collection s) ->
  always (fun s => J (collection s)) (_index_local_directory w root_path s).
Proof.
  intros Hstep HQ Hs.
  assert (forall all_paths s, Forall Q all_paths -> J (collection s) ->
            always (fun s => J (collection s)) (local_after_scan w root_path all_paths s))
    as Hafter.
  { intros all_paths s1 Hall H1. unfold local_after_scan. apply always_poll. intros b.
    destruct (is_cancelled _).
    - cbn. apply always_yield. intros b'. apply always_stop.
      now same_collection.
    - apply always_yield. intros b'. unfold local_batches.
      apply batch_loop_always; [|now same_collection].
      intros i s2 H2. apply Hstep; [|assumption].
      now apply Forall_take, Forall_drop. }
  assert (forall triples all_paths s, Forall Q all_paths -> Forall Q (scanned_paths triples) ->
            J (collection s) ->
            always (fun s => J (collection s)) (local_scan w root_path triples all_paths s))
    as Hscan.
  { induction triples as [|[[r d] f] triples IH]; intros all_paths s1 Hall Htr H1;
      cbn [local_scan].
    - now apply Hafter.
    - unfold scanned_paths in Htr. cbn [flat_map] in Htr.
      apply Forall_app in Htr as [Hhd Htl].
      apply always_poll. intros b. destruct (is_cancelled _).
      + apply Hafter; [assumption | now same_collection].
      + apply IH; [now apply Forall_app | assumption | now same_collection]. }
  unfold _index_local_directory. destruct (negb _).
  - apply always_yield. intros b. apply always_stop. now same_collection.
  - apply always_yield. intros b.
    apply Hscan; [constructor | exact HQ | now same_collection].
Qed.

Lemma repo_always (J : gmap string (string * metadata) -> Prop)
    (w : world) (url : string) (s : explorer) :
  (forall files base error i s,
     RepoLoader.get_repo_files w url = (Some files, Some base, error) ->
     J (collection s) ->
     J (collection (process_repo_batch w url base
                      (take repo_batch_size (drop i files)) s))) ->
  J (collection s) ->
  always (fun s => J (collection s)) (_index_repository w url s).
Proof.
  intros Hstep Hs. unfold _index_repository. apply always_yield. intros b.
  destruct (RepoLoader.get_repo_files w url) as [[files base] error] eqn:E.
  destruct (RepoLoader.truthy error) eqn:Et.
  - apply always_yield. intros b'. apply always_stop. now same_collection.
  - destruct (get_repo_files_listed w url files base error E Et)
      as (listed & base_url & -> & ->).
    cbn [default from_option id].
    apply always_yield. intros b'. unfold repo_batches.
    apply batch_loop_always; [|now same_collection].
    intros i s2 H2. now apply (Hstep listed base_url error).
Qed.

(** *** Skipped remote files *)

Lemma append_inj_l (a x y : string) : a ++ x = a ++ y -> x = y.
Proof.
  induction a as [|c a IH]; [trivial|].
  rewrite !app_cons_s. intros [= H]. now apply IH.
Qed.

Lemma repo_ids_elem (w : world) (url base : string) (files : list file_meta) (id : string) :
  id ∈ repo_ids w url base files <->
  exists g it, g ∈ files /\ repo_item w url base g = Some it /\ it.2 = id.
Proof.
  unfold repo_ids. rewrite elem_of_list_to_set, list_elem_of_fmap. split.
  - intros (it & -> & (g & Hg & Hit)%list_elem_of_omap). now exists g, it.
  - intros (g & it & Hg & Hit & <-). exists it. split; [reflexivity|].
    apply list_elem_of_omap. now exists g.
Qed.

Lemma repo_ids_mono (w : world) (url base : string) (l1 l2 : list file_meta) :
  (forall g, g ∈ l1 -> g ∈ l2) -> repo_ids w url base l1 ⊆ repo_ids w url base l2.
Proof.
  intros H id (g & it & Hg & Hit & <-)%repo_ids_elem.
  apply repo_ids_elem. exists g, it. auto.
Qed.

Lemma elem_of_take_drop {A : Type} (b i : nat) (l : list A) (x : A) :
  x ∈ take b (drop i l) -> x ∈ l.
Proof.
  intros H. apply list_elem_of_lookup in H as [j Hj].
  apply lookup_take_Some in Hj as [Hj _]. rewrite lookup_drop in Hj.
  apply list_elem_of_lookup. eauto.
Qed.

(** A file whose fetch reports an error contributes no id. *)
Lemma skipped_not_in_repo_ids (w : world) (url base : string) (files : list file_meta)
    (f : file_meta) :
  repo_item w url base f = None ->
  "repo::" ++ url ++ "::" ++ fm_path f ∉ repo_ids w url base files.
Proof.
  intros Hf (g & it & Hg & Hit & Hid)%repo_ids_elem.
  pose proof (repo_item_id w url base g it Hit) as (Hid' & _).
  rewrite Hid' in Hid. do 3 apply append_inj_l in Hid.
  unfold repo_item in Hf, Hit. rewrite Hid in Hit.
  destruct (RepoLoader.get_remote_file_content _ _ _); discriminate.
Qed.

(** C7. A listed file whose content is refused (the content-length header
    or the streamed body exceeds the cap of 1,000,000 bytes, or a null byte
    stands among the first 1024 bytes) is skipped: it yields no item, and
    however the run goes its id is in the collection afterwards only if it
    was there before. The run is not aborted: pulled to the end it finishes
    with the completion message, and every listed file whose fetch succeeds
    is in the collection. *)
Theorem refused_remote_file_is_skipped (w : world) (url : string) (s : explorer)
    (files : list file_meta) (base : string) (error : option string) (f : file_meta)
    (content_length : option string) (body : list chunk_event) :
  is_repository url = true ->
  RepoLoader.get_repo_files w url = (Some files, Some base, error) ->
  RepoLoader.truthy error = false ->
  f ∈ files ->
  requests_get w (urljoin_quote w base (fm_path f)) = Response content_length body ->
  RepoLoader.refused RepoLoader.default_max_size content_length body ->
  let id := "repo::" ++ url ++ "::" ++ fm_path f in
  repo_item w url base f = None
  /\ (forall env t,
        id ∈ dom (collection (drive env t (index_directory w url s)).2) ->
        id ∈ dom (collection s))
  /\ (let r := run_to_end w url s in
      last r.1 = Some (complete_report (size (collection r.2)))
      /\ dom (collection r.2) = dom (collection s) ∪ repo_ids w url base files
      /\ forall g it, g ∈ files -> repo_item w url base g = Some it ->
           it.2 ∈ dom (collection r.2)).
Proof.
  intros Hrepo E Et Hf Hr Href. cbv zeta.
  assert (repo_item w url base f = None) as Hnone.
  { unfold repo_item.
    destruct (get_remote_file_content_refused w _ RepoLoader.default_max_size
                content_length body ltac:(unfold RepoLoader.default_max_size; lia) Hr Href)
      as [e ->].
    reflexivity. }
  split; [exact Hnone|]. split.
  - intros env t Hin.
    assert (dom (collection (drive env t (index_directory w url s)).2)
            ⊆ dom (collection s) ∪ repo_ids w url base files) as Hsub.
    { apply (always_drive (fun s' => dom (collection s') ⊆ dom (collection s)
                                       ∪ repo_ids w url base files)).
      unfold index_directory. fold (is_repository url). rewrite Hrepo.
      apply (repo_always (fun m => dom m ⊆ dom (collection s) ∪ repo_ids w url base files));
        [|cbn; set_solver].
      intros files' base' error' i s' E' Hs'. rewrite E in E'. injection E' as <- <- <-.
      rewrite process_repo_dom.
      pose proof (repo_ids_mono w url base (take repo_batch_size (drop i files)) files
                    (elem_of_take_drop _ _ _)).
      set_solver. }
    apply Hsub in Hin. apply elem_of_union in Hin as [Hin|Hin]; [exact Hin|].
    now apply skipped_not_in_repo_ids in Hin.
  - destruct (run_to_end_spec w url s) as (Hm & Hd & _).
    unfold indexed_ids in Hd. unfold expected_stream in Hm.
    rewrite Hrepo, E, Et in Hm, Hd. repeat split.
    + rewrite Hm. rewrite !app_comm_cons. apply last_snoc.
    + exact Hd.
    + intros g it Hg Hit. rewrite Hd. apply elem_of_union_r, repo_ids_elem.
      now exists g, it.
Qed.




(** *** What the indexers enumerate *)

Lemma get_repo_files_filtered (w : world) (url : string) (files : list file_meta)
    (base error : option string) :
  RepoLoader.get_repo_files w url = (Some files, base, error) ->
  forall f, f ∈ files -> RepoLoader.is_excluded (fm_path f) = false.
Proof.
  unfold RepoLoader.get_repo_files. intros H f Hf.
  repeat case_match; simplify_eq.
  all: apply list_elem_of_In, List.filter_In in Hf as [_ Hf];
    now apply negb_true_iff in Hf.
Qed.

Lemma node_ind' (P : node -> Prop) :
  (forall f, P (File f)) ->
  (forall d children, Forall P children -> P (Dir d children)) ->
  forall n, P n.
Proof.
  intros Hfile Hdir. fix IH 1. intros [f|d children].
  - apply Hfile.
  - apply Hdir. induction children as [|c children IHc]; constructor.
    + apply IH.
    + exact IHc.
Qed.

(** Every directory that [os.walk] visits below an entry is reached from
    it through kept directories of the tree, and its triple lists that
    directory's entries. *)
Lemma walk_node_sound (n : node) :
  forall top triple,
    triple ∈ walk_node top n ->
    exists d children chain entries',
      n = Dir d children
      /\ More.subdir children chain entries'
      /\ Forall (fun d => kept d = true) (d :: chain)
      /\ triple = (path_of top (d :: chain), dirnames entries', filenames entries').
Proof.
  induction n as [f|d children IH] using node_ind'; intros top triple H; cbn [walk_node] in H.
  - now apply elem_of_nil in H.
  - destruct (kept d) eqn:Hd; [|now apply elem_of_nil in H].
    apply elem_of_cons in H as [->|H].
    + exists d, children, [], children.
      repeat split; [constructor | now repeat constructor].
    + apply list_elem_of_In, List.in_flat_map in H as (c & Hc & H).
      apply list_elem_of_In in H.
      rewrite List.Forall_forall in IH.
      destruct (IH c Hc _ _ H) as (d' & ch' & chain & entries' & -> & Hsub & Hk & ->).
      exists d, children, (d' :: chain), entries'.
      repeat split.
      * apply More.subdir_down with ch'; [now apply list_elem_of_In | exact Hsub].
      * now constructor.
Qed.

Lemma os_walk_sound (w : world) (root_path : string)
    (triple : string * list string * list string) :
  triple ∈ os_walk w root_path ->
  exists entries chain entries',
    scandir_tree w root_path = Some entries
    /\ More.subdir entries chain entries'
    /\ Forall (fun d => kept d = true) chain
    /\ triple = (path_of root_path chain, dirnames entries', filenames entries').
Proof.
  unfold os_walk. destruct (scandir_tree w root_path) as [entries|];
    [|intros H; now apply elem_of_nil in H].
  intros [->|H]%elem_of_cons.
  - exists entries, [], entries. repeat split; constructor.
  - apply list_elem_of_In, List.in_flat_map in H as (c & Hc & H).
    apply list_elem_of_In, walk_node_sound in H
      as (d & children & chain & entries' & -> & Hsub & Hk & ->).
    exists entries, (d :: chain), entries'. repeat split; [|exact Hk].
    apply More.subdir_down with children; [now apply list_elem_of_In | exact Hsub].
Qed.

(** Every enumerated path is the name of an entry, a file or a kept
    directory, joined to such a directory. *)
Lemma local_paths_sound (w : world) (root_path p : string) :
  p ∈ local_paths w root_path ->
  exists entries chain entries' leaf,
    scandir_tree w root_path = Some entries
    /\ More.subdir entries chain entries'
    /\ Forall (fun d => kept d = true) chain
    /\ (leaf ∈ filenames entries' \/ (leaf ∈ dirnames entries' /\ kept leaf = true))
    /\ p = os_path_join (path_of root_path chain) leaf.
Proof.
  unfold local_paths, scanned_paths.
  intros ([[r d] f] & Ht & H)%list_elem_of_In%List.in_flat_map.
  apply List.in_map_iff in H as (leaf & <- & Hleaf).
  apply list_elem_of_In, os_walk_sound in Ht
    as (entries & chain & entries' & Hscan & Hsub & Hk & [= -> -> ->]).
  exists entries, chain, entries', leaf. repeat split; try assumption.
  apply List.in_app_iff in Hleaf as [Hleaf|Hleaf].
  - left. now apply list_elem_of_In.
  - right. apply List.filter_In in Hleaf as [Hleaf Hkept].
    split; [now apply list_elem_of_In | exact Hkept].
Qed.

Lemma kept_not_node_modules (anc : list string) :
  Forall (fun d => kept d = true) anc -> "node_modules" ∉ anc.
Proof.
  intros H Hin. rewrite Forall_forall in H. apply H in Hin. discriminate.
Qed.

(** *** Paths of plain names *)

Lemma plain_name_cons (name : string) :
  More.plain_name name = true ->
  exists c rest, name = String c rest /\ Ascii.eqb c Pathlib.slash = false
                 /\ PyStr.free_of Pathlib.slash rest = true.
Proof.
  unfold More.plain_name. destruct name as [|c rest]; [discriminate|].
  cbn [String.eqb negb andb PyStr.free_of].
  intros [Hc Hr]%andb_true_iff. apply negb_true_iff in Hc. now exists c, rest.
Qed.

Lemma endswith_eq (suf s : string) :
  PyStr.endswith suf s =
  String.eqb suf s ||
  match s with
  | EmptyString => false
  | String _ s' => PyStr.endswith suf s'
  end.
Proof. now destruct s. Qed.

Lemma endswith_slash_free (s : string) :
  PyStr.free_of Pathlib.slash s = true -> PyStr.endswith "/" s = false.
Proof.
  induction s as [|c s IH]; [reflexivity|].
  cbn [PyStr.free_of]. intros [Hc Hs]%andb_true_iff. apply negb_true_iff in Hc.
  rewrite endswith_eq, (IH Hs), orb_false_r.
  cbn [String.eqb]. fold Pathlib.slash. rewrite Ascii.eqb_sym, Hc. reflexivity.
Qed.

Lemma endswith_slash_app (a name : string) :
  More.plain_name name = true -> PyStr.endswith "/" (a ++ name) = false.
Proof.
  intros Hn. destruct (plain_name_cons name Hn) as (c & rest & -> & Hc & Hr).
  induction a as [|x a IH].
  - rewrite app_nil_s. apply endswith_slash_free.
    cbn [PyStr.free_of]. now rewrite Hc, Hr.
  - rewrite app_cons_s, endswith_eq, IH, orb_false_r.
    destruct a as [|y a]; [rewrite app_nil_s | rewrite app_cons_s];
      cbn [String.eqb]; apply andb_false_r.
Qed.

Lemma sep_after_plain (a name : string) :
  More.plain_name name = true -> More.sep_after (a ++ name) = "/".
Proof.
  intros Hn. unfold More.sep_after. rewrite (endswith_slash_app a name Hn), orb_false_r.
  destruct (plain_name_cons name Hn) as (c & rest & -> & _).
  now destruct a.
Qed.

(** [os.path.join] of a plain name neither restarts the path nor doubles a
    slash. *)
Lemma os_path_join_plain (a name : string) :
  More.plain_name name = true -> os_path_join a name = a ++ More.sep_after a ++ name.
Proof.
  intros Hn. destruct (plain_name_cons name Hn) as (c & rest & -> & Hc & _).
  unfold os_path_join, More.sep_after.
  assert (String.prefix "/" (String c rest) = false) as ->.
  { cbn [String.prefix]. destruct (ascii_dec "/" c) as [<-|]; [discriminate Hc | reflexivity]. }
  destruct (String.eqb a EmptyString || PyStr.endswith "/" a);
    [now rewrite app_nil_s | reflexivity].
Qed.

Lemma path_of_plain (names : list string) :
  forall root,
    Forall (fun name => More.plain_name name = true) names -> names <> [] ->
    path_of root names = root ++ More.sep_after root ++ PyStr.join "/" names.
Proof.
  induction names as [|x names IH]; intros root Hp Hne; [now destruct Hne|].
  apply Forall_cons in Hp as [Hx Hp]. cbn [path_of foldl].
  destruct names as [|y names].
  - cbn [foldl PyStr.join]. now apply os_path_join_plain.
  - fold (path_of (os_path_join root x) (y :: names)).
    rewrite (IH _ Hp) by discriminate.
    rewrite (os_path_join_plain root x Hx).
    replace (root ++ More.sep_after root ++ x) with ((root ++ More.sep_after root) ++ x)
      by apply app_assoc_s.
    rewrite (sep_after_plain _ x Hx). cbn [PyStr.join].
    now rewrite !app_assoc_s.
Qed.

Lemma join_cons2 (sep x y : string) (rest : list string) :
  PyStr.join sep (x :: y :: rest) = x ++ sep ++ PyStr.join sep (y :: rest).
Proof. reflexivity. Qed.

Lemma split_join_plain (names : list string) :
  Forall (fun name => More.plain_name name = true) names -> names <> [] ->
  PyStr.split Pathlib.slash (PyStr.join "/" names) = names.
Proof.
  induction names as [|x names IH]; intros Hp Hne; [now destruct Hne|].
  apply Forall_cons in Hp as [Hx Hp].
  assert (PyStr.free_of Pathlib.slash x = true) as Hfree.
  { unfold More.plain_name in Hx. now apply andb_true_iff in Hx as [_ Hx]. }
  destruct names as [|y names].
  - now apply split_free.
  - rewrite join_cons2, app_cons_s, app_nil_s.
    change (PyStr.split Pathlib.slash
              (x ++ String Pathlib.slash (PyStr.join "/" (y :: names))) = x :: y :: names).
    rewrite split_app_sep, (split_free _ x Hfree), (IH Hp) by discriminate.
    reflexivity.
Qed.

(** A path below [root] is read as plain names in one way only. *)
Lemma path_of_plain_inj (root : string) (names names' : list string) :
  Forall (fun name => More.plain_name name = true) names -> names <> [] ->
  Forall (fun name => More.plain_name name = true) names' -> names' <> [] ->
  path_of root names = path_of root names' -> names = names'.
Proof.
  intros Hp Hne Hp' Hne' H.
  rewrite (path_of_plain names root Hp Hne), (path_of_plain names' root Hp' Hne') in H.
  apply append_inj_l, append_inj_l in H.
  rewrite <- (split_join_plain names Hp Hne), <- (split_join_plain names' Hp' Hne').
  now rewrite H.
Qed.

Lemma path_of_snoc (root : string) (chain : list string) (leaf : string) :
  os_path_join (path_of root chain) leaf = path_of root (chain ++ [leaf]).
Proof. unfold path_of. now rewrite foldl_app. Qed.

(** In a tree of plain names, the names on the way down and the names
    found there are plain. *)
Lemma subdir_plain (entries : list node) (chain : list string) (entries' : list node) :
  More.subdir entries chain entries' ->
  forallb More.plain_tree entries = true ->
  Forall (fun name => More.plain_name name = true) chain
  /\ forallb More.plain_tree entries' = true.
Proof.
  induction 1 as [entries|entries d children chain entries' Hin _ IH]; intros Hp.
  - split; [constructor | exact Hp].
  - rewrite forallb_forall in Hp. apply list_elem_of_In, Hp in Hin.
    cbn [More.plain_tree] in Hin. apply andb_true_iff in Hin as [Hd Hch].
    destruct (IH Hch) as [Hc He]. split; [now constructor | exact He].
Qed.

Lemma entry_plain (entries : list node) (leaf : string) :
  forallb More.plain_tree entries = true ->
  leaf ∈ filenames entries \/ leaf ∈ dirnames entries ->
  More.plain_name leaf = true.
Proof.
  intros Hp H. rewrite forallb_forall in Hp.
  destruct H as [H|H]; apply list_elem_of_omap in H as (n & Hn & Hleaf);
    apply list_elem_of_In, Hp in Hn; destruct n as [f|d children]; simplify_eq.
  - exact Hn.
  - cbn [More.plain_tree] in Hn. now apply andb_true_iff in Hn as [Hn _].
Qed.

(** C1, as the code has it. After any indexing run, cancelled or not, every
    item of the collection that was not there before is of one of two
    kinds. From a repository run: its relative path passed [is_excluded];
    in particular its extension is not [.png] (in either case) and it holds
    no [node_modules/]. From a local run: its path is the name of an entry
    of the scanned tree, a file or a directory that is not pruned, joined
    to a directory reached from the root through directories none of which
    is pruned ([node_modules] is a pruned name); and when the names of the
    tree are plain (not empty, no slash), this is the only way to read the
    path as directory names and a name below the root, so no reading of it
    goes through a pruned directory: nothing below [node_modules] is added.
    The local scan has no rule on file names or extensions. *)
Theorem indexed_items_respect_exclusions (w : world) (path_or_url : string)
    (s : explorer) (env : nat -> bool) (t : nat) (id : string) (v : string * metadata) :
  collection (drive env t (index_directory w path_or_url s)).2 !! id = Some v ->
  collection s !! id = Some v
  \/ (is_repository path_or_url = true
      /\ id = "repo::" ++ path_or_url ++ "::" ++ relative_path v.2
      /\ RepoLoader.is_excluded (relative_path v.2) = false
      /\ PyStr.lower (Pathlib.suffix (relative_path v.2)) <> ".png"
      /\ PyStr.contains "node_modules/" (relative_path v.2) = false)
  \/ (is_repository path_or_url = false
      /\ exists entries anc entries' leaf,
           scandir_tree w path_or_url = Some entries
           /\ More.subdir entries anc entries'
           /\ Forall (fun d => kept d = true) anc
           /\ ("node_modules" ∉ anc)
           /\ (leaf ∈ filenames entries' \/ (leaf ∈ dirnames entries' /\ kept leaf = true))
           /\ full_path v.2 = os_path_join (path_of path_or_url anc) leaf
           /\ id = "local::" ++ full_path v.2
           /\ (forallb More.plain_tree entries = true ->
               forall dirs name,
                 Forall (fun d => More.plain_name d = true) dirs ->
                 More.plain_name name = true ->
                 full_path v.2 = os_path_join (path_of path_or_url dirs) name ->
                 dirs = anc /\ name = leaf
                 /\ Forall (fun d => kept d = true) dirs
                 /\ ("node_modules" ∉ dirs))).
Proof.
  set (L := fun (p : string) =>
    exists entries anc entries' leaf,
      scandir_tree w path_or_url = Some entries
      /\ More.subdir entries anc entries'
      /\ Forall (fun d => kept d = true) anc
      /\ (leaf ∈ filenames entries' \/ (leaf ∈ dirnames entries' /\ kept leaf = true))
      /\ p = os_path_join (path_of path_or_url anc) leaf).
  set (P := fun (id : string) (v : string * metadata) =>
    (is_repository path_or_url = true
      /\ id = "repo::" ++ path_or_url ++ "::" ++ relative_path v.2
      /\ RepoLoader.is_excluded (relative_path v.2) = false
      /\ PyStr.lower (Pathlib.suffix (relative_path v.2)) <> ".png"
      /\ PyStr.contains "node_modules/" (relative_path v.2) = false)
    \/ (is_repository path_or_url = false
        /\ L (full_path v.2) /\ id = "local::" ++ full_path v.2)).
  intros H.
  assert (old_or (collection s) P
            (collection (drive env t (index_directory w path_or_url s)).2)) as Hinv.
  { apply (always_drive (fun s' => old_or (collection s) P (collection s'))).
    unfold index_directory. fold (is_repository path_or_url).
    destruct (is_repository path_or_url) eqn:Hrepo.
    - apply (repo_always (old_or (collection s) P)); [|apply old_or_refl].
      intros files base error i s' E Hs'. apply old_or_upsert_batch; [|exact Hs'].
      intros it (g & Hg & Hit)%list_elem_of_omap.
      apply elem_of_take_drop in Hg.
      pose proof (get_repo_files_filtered w path_or_url files _ _ E g Hg) as Hex.
      destruct (repo_item_id w path_or_url base g it Hit) as (Hid & _ & Hrel & _).
      left. cbn [fst snd]. rewrite Hrel. repeat split; try assumption.
      + intros Hpng. apply is_excluded_png in Hpng. congruence.
      + destruct (PyStr.contains "node_modules/" (fm_path g)) eqn:Hc; [|reflexivity].
        apply is_excluded_node_modules in Hc. congruence.
    - apply (local_always (old_or (collection s) P) L); [| |apply old_or_refl].
      + intros batch s' Hb Hs'. apply old_or_upsert_batch; [|exact Hs'].
        intros it (p & Hp & Hit)%list_elem_of_omap.
        rewrite Forall_forall in Hb. specialize (Hb p Hp).
        destruct (local_item_id w path_or_url p it Hit) as (Hid & _ & Hfull).
        right. cbn [fst snd]. rewrite Hfull. repeat split; assumption.
      + apply Forall_forall. intros p Hp. now apply local_paths_sound in Hp. }
  destruct (Hinv id v H) as [Hold|[Hrepo|(Hlocal & HL & Hid)]];
    [now left | now right; left | right; right].
  split; [exact Hlocal|].
  destruct HL as (entries & anc & entries' & leaf & Hscan & Hsub & Hk & Hleaf & Hpath).
  exists entries, anc, entries', leaf.
  split; [exact Hscan|]. split; [exact Hsub|]. split; [exact Hk|].
  split; [now apply kept_not_node_modules|]. split; [exact Hleaf|].
  split; [exact Hpath|]. split; [exact Hid|].
  intros Hplain dirs name Hdirs Hname Hread.
  destruct (subdir_plain entries anc entries' Hsub Hplain) as [Hanc Hentries'].
  assert (More.plain_name leaf = true) as Hl
    by (apply (entry_plain entries' leaf Hentries'); tauto).
  rewrite Hpath, !path_of_snoc in Hread.
  assert (Forall (fun d => More.plain_name d = true) (anc ++ [leaf])) as Ha
    by (apply Forall_app; split; [exact Hanc | constructor; [exact Hl | constructor]]).
  assert (Forall (fun d => More.plain_name d = true) (dirs ++ [name])) as Hd
    by (apply Forall_app; split; [exact Hdirs | constructor; [exact Hname | constructor]]).
  apply (path_of_plain_inj _ _ _ Ha ltac:(now destruct anc) Hd ltac:(now destruct dirs))
    in Hread.
  apply app_inj_tail in Hread as [<- <-].
  split; [reflexivity|]. split; [reflexivity|]. split; [exact Hk|].
  now apply kept_not_node_modules.
Qed.

End Generators.


(** ** Search *)

Section Search.
Import Explorer.

Lemma contains_empty (s : string) : PyStr.contains EmptyString s = true.
Proof. rewrite contains_eq. now destruct s. Qed.

Lemma extract_path_filter_cons (c : cond) (conditions : list cond) (pcf0 : option lit) :
  extract_path_filter (c :: conditions) pcf0
  = match path_contains_of c with
    | Some v => extract_path_filter conditions (Some v)
    | None =>
        let '(remaining, pcf) := extract_path_filter conditions pcf0 in
        (c :: remaining, pcf)
    end.
Proof.
  cbn [extract_path_filter]. unfold path_contains_of.
  destruct (c !! "relative_path") as [ops|]; [|reflexivity].
  now destruct (ops !! "$contains").
Qed.

(** [extract_path_filter] drops every contains-condition and keeps the
    substring of the last one. *)
Lemma extract_path_filter_spec (conditions : list cond) :
  forall pcf0,
    extract_path_filter conditions pcf0
    = (native_conditions conditions,
       match last (omap path_contains_of conditions) with
       | Some v => Some v
       | None => pcf0
       end).
Proof.
  unfold native_conditions.
  induction conditions as [|c conditions IH]; intros pcf0; [reflexivity|].
  rewrite extract_path_filter_cons. cbn [omap list_omap List.filter].
  destruct (path_contains_of c) as [v|].
  - rewrite IH, last_cons. now destruct (last _).
  - now rewrite IH.
Qed.

Lemma split_filters_and (g : where_) (conditions : list cond) :
  and_ g = Some conditions ->
  split_filters (Some g)
  = ({| and_ := match native_conditions conditions with
                | [] => None
                | remaining => Some remaining
                end;
        fields := fields g |},
     last (omap path_contains_of conditions)).
Proof.
  destruct g as [a f]. cbn [and_ fields]. intros ->.
  unfold split_filters, where_nonempty. cbn [and_ fields].
  rewrite extract_path_filter_spec.
  destruct (native_conditions conditions); now destruct (last _).
Qed.

Lemma split_filters_fields (g : where_) :
  and_ g = None ->
  split_filters (Some g)
  = match path_contains_of (fields g) with
    | Some v => ({| and_ := None; fields := delete "relative_path" (fields g) |}, Some v)
    | None => ({| and_ := None; fields := fields g |}, None)
    end.
Proof.
  destruct g as [a f]. cbn [and_ fields]. intros ->.
  unfold split_filters, where_nonempty, path_contains_of. cbn [and_ fields].
  destruct (bool_decide (f = ∅)) eqn:E; cbn [negb and_ fields empty_where].
  - apply bool_decide_eq_true in E. subst f. now rewrite !lookup_empty.
  - destruct (f !! "relative_path") as [ops|];
      [destruct (ops !! "$contains")|]; reflexivity.
Qed.

(** Every result the loop appends has passed the post-filter. *)
Lemma collect_contains (sub : string) (n_results : Z) (metadatas : list metadata)
    (distances : list float) :
  forall i output out,
    (forall r, r ∈ output -> PyStr.contains sub (path r) = true) ->
    collect (Some (LStr sub)) n_results metadatas i distances output = inl out ->
    forall r, r ∈ out -> PyStr.contains sub (path r) = true.
Proof.
  induction distances as [|dist distances IH]; intros i output out Hout; cbn [collect].
  - now intros [= <-].
  - destruct (metadatas !! i) as [meta|]; [|discriminate].
    cbn [fails_path_filter].
    destruct (String.eqb sub EmptyString) eqn:Hsub.
    + apply String.eqb_eq in Hsub. subst sub. intros _ r _. apply contains_empty.
    + destruct (PyStr.contains sub (relative_path meta)) eqn:Hc; cbn [negb].
      * assert (forall r, r ∈ (output ++ [result_of dist meta])%list ->
                          PyStr.contains sub (path r) = true) as Hout'.
        { intros r [Hr|Hr]%elem_of_app; [now apply Hout|].
          apply list_elem_of_singleton in Hr. now subst r. }
        destruct (_ >=? _)%Z; [intros [= <-]; exact Hout' | now apply IH].
      * now apply IH.
Qed.


(** What [search] does on a non-empty index: the request sent to the store
    and the shaping of its answer. *)
Lemma search_nonempty (w : world) (query : string) (n : Z)
    (metadata_filters : option where_) (self : explorer) :
  size (collection self) <> 0%nat ->
  let native := (split_filters metadata_filters).1 in
  let pcf := (split_filters metadata_filters).2 in
  let params :=
    {| query_embeddings := [encode w query];
       n_results := Z.min (n * 5) (Z.of_nat (size (collection self)));
       where_filter := if where_nonempty native then Some native else None |} in
  let results := chroma_query w (collection self) params in
  search w query n metadata_filters self
  = (match ids0 results with
     | [] => inl []
     | _ => collect pcf n (metadatas0 results) 0 (distances0 results) []
     end,
     logged (CallQuery params) (logged CallCount (logged CallCount self))).
Proof.
  intros Hne. cbv zeta. unfold search. cbn [collection_count logged collection].
  destruct (size (collection self) =? 0)%nat eqn:E; [apply Nat.eqb_eq in E; contradiction|].
  destruct (split_filters metadata_filters) as [native pcf]. cbn [fst snd].
  unfold collection_query. cbn [collection logged].
  now destruct (ids0 _).
Qed.

Lemma search_results_contain (w : world) (query : string) (n : Z)
    (metadata_filters : option where_) (self : explorer) (sub : string)
    (out : list search_result) :
  (split_filters metadata_filters).2 = Some (LStr sub) ->
  (search w query n metadata_filters self).1 = inl out ->
  forall r, r ∈ out -> PyStr.contains sub (path r) = true.
Proof.
  intros Hpcf. destruct (decide (size (collection self) = 0%nat)) as [Hz|Hnz].
  - rewrite (proj1 (search_empty_index w query n metadata_filters self Hz)).
    intros [= <-] r Hr. now apply elem_of_nil in Hr.
  - rewrite (search_nonempty w query n metadata_filters self Hnz). cbn [fst].
    rewrite Hpcf. destruct (ids0 _).
    + intros [= <-] r Hr. now apply elem_of_nil in Hr.
    + apply collect_contains. intros r Hr. now apply elem_of_nil in Hr.
Qed.



(** How [search] splits a filter. In an [$and] list every condition that
    holds a ["relative_path" $contains] entry is taken out, the other
    conditions go to the store unchanged and in order, and one substring is
    kept, that of the last such condition; outside an [$and] a top-level
    ["relative_path" $contains] entry is taken out and the other fields go
    to the store unchanged. The store is queried with what remains (with no
    filter when nothing remains), and every returned result's relative path
    contains the kept substring. *)
Lemma path_filter_is_post_applied (w : world) (query : string) (n : Z)
    (metadata_filters : option where_) (self : explorer) :
  let native := (split_filters metadata_filters).1 in
  let pcf := (split_filters metadata_filters).2 in
  (forall g conditions,
     metadata_filters = Some g -> and_ g = Some conditions ->
     and_ native = match native_conditions conditions with
                   | [] => None
                   | remaining => Some remaining
                   end
     /\ fields native = fields g
     /\ pcf = last (omap path_contains_of conditions))
  /\ (forall g,
        metadata_filters = Some g -> and_ g = None ->
        and_ native = None
        /\ match path_contains_of (fields g) with
           | Some v => fields native = delete "relative_path" (fields g) /\ pcf = Some v
           | None => fields native = fields g /\ pcf = None
           end)
  /\ (size (collection self) <> 0%nat ->
      exists params,
        last (calls (search w query n metadata_filters self).2) = Some (CallQuery params)
        /\ where_filter params = if where_nonempty native then Some native else None)
  /\ (forall sub out,
        pcf = Some (LStr sub) ->
        (search w query n metadata_filters self).1 = inl out ->
        forall r, r ∈ out -> PyStr.contains sub (path r) = true).
Proof.
  cbv zeta. repeat split.
  - subst. now rewrite (split_filters_and g conditions).
  - subst. now rewrite (split_filters_and g conditions).
  - subst. now rewrite (split_filters_and g conditions).
  - subst. rewrite (split_filters_fields g) by assumption.
    now destruct (path_contains_of (fields g)).
  - subst. rewrite (split_filters_fields g) by assumption.
    now destruct (path_contains_of (fields g)).
  - intros Hne. rewrite (search_nonempty w query n metadata_filters self Hne).
    cbv zeta. cbn [snd calls logged]. eexists. split; [apply last_snoc | reflexivity].
  - intros sub out Hpcf Hout. now apply (search_results_contain w query n metadata_filters self).
Qed.

(** C9. When the [$and] list holds several ["relative_path" $contains]
    conditions, all of them are taken out of the native filter, and the
    post-filter is the substring of the last one only: every returned
    result contains that one, and a returned result need not contain the
    substring of an earlier condition. *)
Theorem only_last_contains_is_enforced :
  (forall g conditions,
     and_ g = Some conditions ->
     split_filters (Some g)
     = ({| and_ := match native_conditions conditions with
                   | [] => None
                   | remaining => Some remaining
                   end;
           fields := fields g |},
        last (omap path_contains_of conditions)))
  /\ (forall conditions c, c ∈ native_conditions conditions -> path_contains_of c = None)
  /\ (forall w query n g self conditions sub out,
        and_ g = Some conditions ->
        last (omap path_contains_of conditions) = Some (LStr sub) ->
        (search w query n (Some g) self).1 = inl out ->
        forall r, r ∈ out -> PyStr.contains sub (path r) = true)
  /\ (exists w query n g self conditions c sub out r,
        and_ g = Some conditions
        /\ c ∈ conditions
        /\ path_contains_of c = Some (LStr sub)
        /\ (search w query n (Some g) self).1 = inl out
        /\ r ∈ out
        /\ PyStr.contains sub (path r) = false).
Proof.
  split; [exact split_filters_and|]. split; [|split].
  - intros conditions c Hc. unfold native_conditions in Hc.
    apply list_elem_of_In, List.filter_In in Hc as [_ Hc].
    now destruct (path_contains_of c).
  - intros w query n g self conditions sub out Hg Hlast.
    apply search_results_contain. now rewrite (split_filters_and g conditions Hg).
  - exists Examples.search_world, "notes", 5%Z, Examples.two_contains, Examples.indexed,
      [Examples.path_contains "a"; Examples.path_contains "b"], (Examples.path_contains "a"),
      "a", [result_of 0.5%float (Examples.meta_of "b.txt");
            result_of (-0.5)%float (Examples.meta_of "ab.txt")],
      (result_of 0.5%float (Examples.meta_of "b.txt")).
    split; [reflexivity|]. split; [constructor|]. split; [reflexivity|].
    split; [vm_compute; reflexivity|]. split; [constructor | reflexivity].
Qed.

End Search.

(** ** More on [is_excluded] *)

Section ExclusionRules.
Import RepoLoader.

Lemma free_of_app (sep : ascii) (a b : string) :
  PyStr.free_of sep (a ++ b) = PyStr.free_of sep a && PyStr.free_of sep b.
Proof.
  induction a as [|c a IH]; [reflexivity|].
  rewrite app_cons_s. cbn [PyStr.free_of]. rewrite IH. now rewrite andb_assoc.
Qed.

(** The final component of [dir/name] is [name]. *)
Lemma name_of_plain (d nm : string) :
  (d = EmptyString \/ exists d', d = d' ++ "/") ->
  (2 <= String.length nm)%nat -> PyStr.free_of Pathlib.slash nm = true ->
  Pathlib.name (d ++ nm) = nm.
Proof.
  intros Hd Hlen Hfree. unfold Pathlib.name, Pathlib.segments.
  assert (negb (String.eqb nm EmptyString) && negb (String.eqb nm ".") = true) as Hkeep.
  { apply andb_true_iff; split; apply negb_true_iff, String.eqb_neq; intros ->;
      simpl in Hlen; lia. }
  destruct Hd as [->|[d' ->]].
  - rewrite app_nil_s, split_free by assumption. cbn [List.filter]. now rewrite Hkeep.
  - replace ((d' ++ "/") ++ nm) with (d' ++ String Pathlib.slash nm)
      by now rewrite app_assoc_s.
    rewrite split_app_sep, (split_free _ nm Hfree), List.filter_app.
    cbn [List.filter]. rewrite Hkeep. apply List.last_last.
Qed.

Lemma rfind_free (c : ascii) (e : string) :
  PyStr.free_of c e = true -> Pathlib.rfind c e = None.
Proof.
  induction e as [|x e IH]; [reflexivity|]. cbn [PyStr.free_of Pathlib.rfind].
  intros [Hx He]%andb_true_iff. rewrite (IH He).
  apply negb_true_iff in Hx. now rewrite Hx.
Qed.

Lemma rfind_last (c : ascii) (a e : string) :
  PyStr.free_of c e = true ->
  Pathlib.rfind c (a ++ String c e) = Some (String.length a).
Proof.
  intros He. induction a as [|x a IH].
  - rewrite app_nil_s. cbn [Pathlib.rfind]. now rewrite (rfind_free c e He), Ascii.eqb_refl.
  - rewrite app_cons_s. cbn [Pathlib.rfind]. now rewrite IH.
Qed.

Lemma substring_all (b : string) : String.substring 0 (String.length b) b = b.
Proof. induction b as [|c b IH]; [reflexivity|]. simpl. now rewrite IH. Qed.

Lemma substring_tail (a b : string) :
  String.substring (String.length a) (String.length b) (a ++ b) = b.
Proof.
  induction a as [|c a IH]; [apply substring_all|].
  rewrite app_cons_s. exact IH.
Qed.

(** [stem.ext]: the suffix is [.ext]. *)
Lemma suffix_of_name (stem e : string) :
  stem <> EmptyString -> e <> EmptyString -> PyStr.free_of Pathlib.dot e = true ->
  forall i, Pathlib.rfind Pathlib.dot (stem ++ String Pathlib.dot e) = Some i ->
  ((0 <? i)%nat && (i <? String.length (stem ++ String Pathlib.dot e) - 1)%nat = true)
  /\ String.substring i (String.length (stem ++ String Pathlib.dot e) - i)
       (stem ++ String Pathlib.dot e) = String Pathlib.dot e.
Proof.
  intros Hstem He Hfree i Hi. rewrite rfind_last in Hi by assumption.
  injection Hi as <-. rewrite length_app_s. cbn [String.length].
  assert (0 < String.length stem)%nat by (destruct stem; [contradiction | simpl; lia]).
  assert (0 < String.length e)%nat by (destruct e; [contradiction | simpl; lia]).
  split.
  - apply andb_true_iff. split; [apply Nat.ltb_lt | apply Nat.ltb_lt]; lia.
  - replace (String.length stem + S (String.length e) - String.length stem)%nat
      with (String.length (String Pathlib.dot e)) by (simpl; lia).
    apply substring_tail.
Qed.

(** X1. For a path [dir/stem.ext] (the directory part may be empty, [ext]
    holds no dot) pathlib's name is [stem.ext] and its suffix is [.ext]; so
    such a file is excluded as soon as [.ext], lower-cased, is one of the
    excluded extensions. *)
Theorem extension_rule_on_plain_names (d stem e : string) :
  (d = EmptyString \/ exists d', d = d' ++ "/") ->
  stem <> EmptyString -> PyStr.free_of Pathlib.slash stem = true ->
  e <> EmptyString -> PyStr.free_of Pathlib.dot e = true ->
  PyStr.free_of Pathlib.slash e = true ->
  let p := d ++ stem ++ "." ++ e in
  Pathlib.name p = stem ++ "." ++ e
  /\ Pathlib.suffix p = "." ++ e
  /\ (PyStr.mem (PyStr.lower ("." ++ e)) EXCLUDE_EXTENSIONS = true -> is_excluded p = true).
Proof.
  intros Hd Hstem Hs He Hdot Hslash. cbv zeta.
  assert (0 < String.length stem)%nat by (destruct stem; [contradiction | simpl; lia]).
  assert (0 < String.length e)%nat by (destruct e; [contradiction | simpl; lia]).
  assert (Pathlib.name (d ++ stem ++ "." ++ e) = stem ++ "." ++ e) as Hname.
  { apply name_of_plain; [assumption| |].
    - rewrite length_app_s. change ("." ++ e) with (String Pathlib.dot e). simpl. lia.
    - rewrite free_of_app, Hs. change ("." ++ e) with (String Pathlib.dot e).
      cbn [PyStr.free_of]. now rewrite Hslash. }
  assert (Pathlib.suffix (d ++ stem ++ "." ++ e) = "." ++ e) as Hsuffix.
  { unfold Pathlib.suffix. rewrite Hname.
    change (stem ++ "." ++ e) with (stem ++ String Pathlib.dot e).
    destruct (Pathlib.rfind Pathlib.dot (stem ++ String Pathlib.dot e)) as [i|] eqn:Hi.
    - destruct (suffix_of_name stem e Hstem He Hdot i Hi) as [-> ->]. reflexivity.
    - now rewrite rfind_last in Hi. }
  repeat split; try assumption.
  intros Hext. unfold is_excluded. rewrite Hsuffix, Hext. now rewrite orb_true_r.
Qed.

Lemma dot_file_name_suffix (d e : string) :
  (d = EmptyString \/ exists d', d = d' ++ "/") ->
  e <> EmptyString -> PyStr.free_of Pathlib.dot e = true ->
  PyStr.free_of Pathlib.slash e = true ->
  Pathlib.name (d ++ "." ++ e) = "." ++ e /\ Pathlib.suffix (d ++ "." ++ e) = EmptyString.
Proof.
  intros Hd He Hdot Hslash.
  assert (0 < String.length e)%nat by (destruct e; [contradiction | simpl; lia]).
  assert (Pathlib.name (d ++ "." ++ e) = "." ++ e) as Hname.
  { apply name_of_plain; [assumption| |].
    - change ("." ++ e) with (String Pathlib.dot e). simpl. lia.
    - change ("." ++ e) with (String Pathlib.dot e). cbn [PyStr.free_of]. now rewrite Hslash. }
  split; [exact Hname|].
  unfold Pathlib.suffix. rewrite Hname.
  change ("." ++ e) with (EmptyString ++ String Pathlib.dot e).
  now rewrite rfind_last.
Qed.

(** X2. A dot-file [dir/.name] with no further dot has no suffix, so the
    extension rule never applies to it: whether it is excluded is decided by
    the file-name list and the patterns alone. That is why [.env] is not
    excluded although [.env] is among the excluded extensions. *)
Theorem dot_files_have_no_extension (d e : string) :
  (d = EmptyString \/ exists d', d = d' ++ "/") ->
  e <> EmptyString -> PyStr.free_of Pathlib.dot e = true ->
  PyStr.free_of Pathlib.slash e = true ->
  let p := d ++ "." ++ e in
  Pathlib.name p = "." ++ e
  /\ Pathlib.suffix p = EmptyString
  /\ is_excluded p
     = (PyStr.mem (PyStr.lower ("." ++ e)) EXCLUDE_FILENAMES
        || existsb (fun pattern => PyStr.contains pattern (Pathlib.as_posix p ++ "/"))
             EXCLUDE_PATTERNS).
Proof.
  intros Hd He Hdot Hslash. cbv zeta.
  destruct (dot_file_name_suffix d e Hd He Hdot Hslash) as [Hname Hsuffix].
  repeat split; try assumption.
  unfold is_excluded. rewrite Hsuffix, Hname.
  replace (PyStr.mem (PyStr.lower EmptyString) EXCLUDE_EXTENSIONS) with false by reflexivity.
  rewrite orb_false_r.
  destruct (PyStr.mem _ EXCLUDE_FILENAMES); [reflexivity|].
  now destruct (existsb _ _).
Qed.

Lemma lower_ascii_not_upper_D (c : ascii) : PyStr.lower_ascii c <> "D"%char.
Proof. destruct c as [[] [] [] [] [] [] [] []]; vm_compute; discriminate. Qed.

(** X3. The file-name rule compares the lower-cased name with a list that
    holds [.DS_Store] in mixed case, so that entry never matches: only
    [.gitignore] and [.gitattributes] are excluded by name, and a file
    named [.DS_Store] in a directory that meets no pattern is not excluded. *)
Theorem ds_store_is_never_matched (p : string) :
  PyStr.lower (Pathlib.name p) <> ".DS_Store"
  /\ (PyStr.mem (PyStr.lower (Pathlib.name p)) EXCLUDE_FILENAMES = true <->
      PyStr.lower (Pathlib.name p) = ".gitignore"
      \/ PyStr.lower (Pathlib.name p) = ".gitattributes")
  /\ (forall d,
        (d = EmptyString \/ exists d', d = d' ++ "/") ->
        is_excluded (d ++ ".DS_Store")
        = existsb (fun pattern =>
                     PyStr.contains pattern (Pathlib.as_posix (d ++ ".DS_Store") ++ "/"))
            EXCLUDE_PATTERNS).
Proof.
  assert (forall s, PyStr.lower s <> ".DS_Store") as Hne.
  { intros [|c1 [|c2 s]]; try discriminate. cbn [PyStr.lower].
    intros [= _ H _]. now apply lower_ascii_not_upper_D in H. }
  split; [apply Hne|]. split.
  - unfold PyStr.mem, EXCLUDE_FILENAMES. cbn [existsb].
    rewrite orb_false_r, !orb_true_iff, !String.eqb_eq. split.
    + intros [H|[H|H]]; [now left | now apply Hne in H | now right].
    + intros [H|H]; [now left | now right; right].
  - intros d Hd.
    destruct (dot_file_name_suffix d "DS_Store" Hd ltac:(discriminate) eq_refl eq_refl)
      as [Hname Hsuffix].
    change ("." ++ "DS_Store") with ".DS_Store" in *.
    unfold is_excluded. rewrite Hname, Hsuffix.
    replace (PyStr.mem (PyStr.lower ".DS_Store") EXCLUDE_FILENAMES) with false by reflexivity.
    replace (PyStr.mem (PyStr.lower EmptyString) EXCLUDE_EXTENSIONS) with false by reflexivity.
    cbn [orb]. now destruct (existsb _ _).
Qed.

Lemma normalized_contains_end (a seg : string) :
  PyStr.free_of Pathlib.slash seg = true -> (2 <= String.length seg)%nat ->
  PyStr.contains (seg ++ "/") (Pathlib.as_posix (a ++ seg) ++ "/") = true.
Proof.
  intros Hfree Hlen.
  assert (exists l1 x, Pathlib.segments (a ++ seg) = List.app l1 [x ++ seg])
    as (l1 & x & Hseg).
  { unfold Pathlib.segments.
    destruct (split_app_free Pathlib.slash a seg Hfree) as (pre & x & ->).
    rewrite List.filter_app. cbn [List.filter].
    assert (negb (String.eqb (x ++ seg) EmptyString) && negb (String.eqb (x ++ seg) ".") = true)
      as ->; [|now eexists _, x].
    apply andb_true_iff; split; apply negb_true_iff, String.eqb_neq; intros E;
      apply (f_equal String.length) in E; rewrite length_app_s in E; simpl in E; lia. }
  rewrite as_posix_segments by (rewrite Hseg; now destruct l1).
  rewrite Hseg, app_assoc_s.
  destruct (join_elem "/" l1 [] (x ++ seg)) as (u & v & ->).
  replace (Pathlib.root (a ++ seg) ++ u ++ (x ++ seg) ++ "/" ++ v)
    with ((Pathlib.root (a ++ seg) ++ u ++ x) ++ (seg ++ "/") ++ v)
    by now rewrite !app_assoc_s.
  apply contains_intro.
Qed.

(** X4. The pattern rule is a substring test on the path with a slash
    appended. So for each of the seven directory names of
    [EXCLUDE_PATTERNS], every path in which the name is followed by a slash
    is excluded, whatever precedes the name (a directory [rebuild/] is
    excluded by [build/]), and so is every path that ends with the name,
    a plain file included. *)
Theorem pattern_rule_is_a_substring_test (seg a b : string) :
  In seg ["__pycache__"; ".git"; "node_modules"; "dist"; "build"; ".vscode"; ".idea"] ->
  In (seg ++ "/") EXCLUDE_PATTERNS
  /\ is_excluded (a ++ seg ++ "/" ++ b) = true
  /\ is_excluded (a ++ seg) = true.
Proof.
  intros Hseg.
  assert (In (seg ++ "/") EXCLUDE_PATTERNS
          /\ PyStr.free_of Pathlib.slash seg = true /\ (2 <= String.length seg)%nat)
    as (Hin & Hfree & Hlen).
  { cbn [In] in Hseg.
    repeat (destruct Hseg as [<-|Hseg];
            [split; [cbn; tauto | split; [reflexivity | simpl; lia]]|]).
    contradiction. }
  split; [exact Hin|].
  assert (forall p, PyStr.contains (seg ++ "/") (Pathlib.as_posix p ++ "/") = true ->
                    is_excluded p = true) as Hex.
  { intros p Hp. unfold is_excluded. destruct (_ || _); [reflexivity|].
    assert (existsb (fun pattern => PyStr.contains pattern (Pathlib.as_posix p ++ "/"))
              EXCLUDE_PATTERNS = true) as ->; [|reflexivity].
    apply existsb_exists. now exists (seg ++ "/"). }
  split; apply Hex.
  - now apply normalized_contains.
  - now apply normalized_contains_end.
Qed.

End ExclusionRules.

(** ** More on the repository loader *)

Section LoaderRules.
Import RepoLoader Explorer.

(** X5. [get_repo_files] answers in one of two shapes only: no list and no
    base url with a non-empty error message, or a list and a base url with
    no error, and then no listed path is excluded. (So the indexer, which
    tests the error first, always finds a list when there is no error.) *)
Theorem get_repo_files_shapes (w : world) (url : string) :
  (exists e, get_repo_files w url = (None, None, Some e) /\ e <> EmptyString)
  \/ (exists files base,
        get_repo_files w url = (Some files, Some base, None)
        /\ forall f, f ∈ files -> is_excluded (fm_path f) = false).
Proof.
  unfold get_repo_files. repeat case_match; simplify_eq.
  all: first
    [ right; eexists _, _; split; [reflexivity|];
      let g := fresh "g" in let Hg := fresh "Hg" in
      intros g Hg; apply list_elem_of_In, List.filter_In in Hg as [_ Hg];
      now apply negb_true_iff in Hg
    | left; eexists; split; [reflexivity|]; vm_compute; discriminate
    | match goal with
      | H : truthy ?e = true |- _ =>
          destruct e as [e'|]; [|discriminate H];
          left; exists e'; split; [reflexivity|]; intros ->; discriminate H
      end ].
Qed.

Lemma stream_accepts (max_size : Z) (body : list chunk_event) :
  forall content,
    Forall (fun e => e <> StreamError) body ->
    (Z.of_nat (length (content ++ body_bytes body)) <= max_size)%Z ->
    stream max_size content body = inl (content ++ body_bytes body)%list.
Proof.
  induction body as [|[chunk|] body IH]; intros content Hok Hlen.
  - cbn. now rewrite List.app_nil_r.
  - apply Forall_cons in Hok as [_ Hok].
    change (body_bytes (Chunk chunk :: body)) with (chunk ++ body_bytes body)%list in *.
    cbn [stream].
    assert ((Z.of_nat (length (content ++ chunk)) >? max_size)%Z = false) as ->.
    { rewrite Z.gtb_ltb. apply Z.ltb_ge. rewrite !length_app in *. lia. }
    rewrite List.app_assoc in *. now apply IH.
  - apply Forall_cons in Hok as [Hok _]. contradiction.
Qed.

(** X6. A fetch succeeds, and gives the decoded bytes, when the request and
    the stream do not fail, the content-length header (if any, and if not
    empty) is a number of at most the cap, the body holds at most [max_size]
    bytes (exactly [max_size] is accepted) and no null byte stands among its
    first 1024 bytes; a null byte further on does not matter. *)
Theorem get_remote_file_content_accepts (w : world) (file_url : string) (max_size : Z)
    (content_length : option string) (body : list chunk_event) :
  requests_get w file_url = Response content_length body ->
  (content_length = None \/ content_length = Some EmptyString
   \/ exists h n, content_length = Some h /\ int_of_str h = Some n /\ (n <= max_size)%Z) ->
  Forall (fun e => e <> StreamError) body ->
  (Z.of_nat (length (body_bytes body)) <= max_size)%Z ->
  x00 ∉ take 1024 (body_bytes body) ->
  get_remote_file_content w file_url max_size
  = inl (decode_utf8_ignore w (body_bytes body)).
Proof.
  intros Hr Hh Hok Hlen Hnul. unfold get_remote_file_content. rewrite Hr.
  assert (stream max_size [] body = inl (body_bytes body)) as Hs
    by now apply (stream_accepts max_size body []).
  assert (existsb (fun b => Byte.eqb b x00) (take 1024 (body_bytes body)) = false) as Hb.
  { destruct (existsb _ _) eqn:E; [|reflexivity].
    apply existsb_exists in E as (b & Hin & Hb). apply Byte.byte_dec_bl in Hb. subst b.
    destruct Hnul. now apply list_elem_of_In. }
  destruct Hh as [->|[->|(h & n & -> & Hn & Hle)]].
  - now rewrite Hs, Hb.
  - cbn. now rewrite Hs, Hb.
  - destruct (negb (String.eqb h EmptyString)); [|now rewrite Hs, Hb].
    rewrite Hn.
    assert ((n >? max_size)%Z = false) as -> by (rewrite Z.gtb_ltb; apply Z.ltb_ge; lia).
    now rewrite Hs, Hb.
Qed.

End LoaderRules.

(** ** The local snippet *)

Section Snippet.
Import Explorer.

Lemma take_length (n : nat) (s : string) : (String.length (PyStr.take n s) <= n)%nat.
Proof.
  unfold PyStr.take. revert s. induction n as [|n IH]; intros [|c s]; simpl; try lia.
  specialize (IH s). lia.
Qed.

Lemma take_is_prefix (n : nat) (s : string) : exists rest, s = PyStr.take n s ++ rest.
Proof.
  unfold PyStr.take. revert s. induction n as [|n IH]; intros [|c s]; simpl.
  - now exists EmptyString.
  - now exists (String c s).
  - now exists EmptyString.
  - destruct (IH s) as [rest Hrest]. exists rest. now rewrite app_cons_s, <- Hrest.
Qed.

Lemma take_take (n m : nat) (s : string) :
  (n <= m)%nat -> PyStr.take n (PyStr.take m s) = PyStr.take n s.
Proof.
  unfold PyStr.take. revert m s. induction n as [|n IH]; intros m s Hle.
  - now destruct (String.substring 0 m s), s.
  - destruct m as [|m]; [lia|]. destruct s as [|c s]; [reflexivity|].
    simpl. now rewrite IH by lia.
Qed.

Lemma contains_app_r (sub s rest : string) :
  PyStr.contains sub s = true -> PyStr.contains sub (s ++ rest) = true.
Proof.
  intros (a & b & ->)%contains_elim. rewrite !app_assoc_s. apply contains_intro.
Qed.

(** X7. The snippet read from a local file has at most [max_len]
    characters; it is empty or a prefix of the file's text, and then the
    first 1024 characters of the text hold no null character; so for
    [max_len] up to 1024 (the indexer asks for 500) the snippet itself never
    holds a null character. A file that cannot be read gives the empty
    snippet. *)
Theorem snippet_is_a_clean_prefix (w : world) (path : string) (max_len : nat) :
  let snippet := _get_file_snippet w path max_len in
  (String.length snippet <= max_len)%nat
  /\ (snippet = EmptyString
      \/ exists text rest,
           open_read w path = Some text /\ text = snippet ++ rest
           /\ PyStr.contains nul (PyStr.take 1024 text) = false)
  /\ ((max_len <= 1024)%nat -> PyStr.contains nul snippet = false)
  /\ (open_read w path = None -> snippet = EmptyString).
Proof.
  cbv zeta. unfold _get_file_snippet.
  destruct (open_read w path) as [text|]; [|repeat split; simpl; try lia; now left].
  destruct (PyStr.contains nul (PyStr.take 1024 text)) eqn:E.
  - repeat split; simpl; try lia; try discriminate. now left.
  - repeat split; try discriminate.
    + apply take_length.
    + right. destruct (take_is_prefix max_len text) as [rest Hrest]. now exists text, rest.
    + intros Hle. destruct (PyStr.contains nul (PyStr.take max_len text)) eqn:E'; [|reflexivity].
      rewrite <- (take_take max_len 1024 text Hle) in E'.
      destruct (take_is_prefix max_len (PyStr.take 1024 text)) as [rest Hrest].
      apply (contains_app_r _ _ rest) in E'. rewrite <- Hrest in E'. congruence.
Qed.

End Snippet.

(** ** What a run adds, and what it leaves alone *)

Section RunEffects.
Import RepoLoader Explorer More.

Lemma upsert_items_lookup_ne (items : list (string * (string * metadata)))
    (m : gmap string (string * metadata)) (k : string) :
  k ∉ items.*1 -> upsert_items items m !! k = m !! k.
Proof.
  unfold upsert_items. revert m.
  induction items as [|[k' v'] items IH]; intros m Hk; [reflexivity|].
  cbn [foldl fst snd]. rewrite IH by set_solver.
  apply lookup_insert_ne. set_solver.
Qed.

Lemma upsert_batch_lookup_ne (items : list (string * metadata * string)) (s : explorer)
    (id : string) :
  id ∉ items.*2 -> collection (upsert_batch items s) !! id = collection s !! id.
Proof.
  intros Hid. unfold upsert_batch. destruct (List.map _ items) eqn:E; [reflexivity|].
  rewrite <- E. cbn [collection collection_upsert].
  apply upsert_items_lookup_ne. now rewrite zip_fst_maps.
Qed.

Lemma only_adds_refl (m0 : gmap string (string * metadata)) (ids : gset string) :
  only_adds m0 ids m0.
Proof. repeat split; set_solver. Qed.

Lemma only_adds_upsert_batch (m0 : gmap string (string * metadata)) (ids : gset string)
    (items : list (string * metadata * string)) (s : explorer) :
  list_to_set items.*2 ⊆ ids ->
  only_adds m0 ids (collection s) -> only_adds m0 ids (collection (upsert_batch items s)).
Proof.
  intros Hsub (H1 & H2 & H3). repeat split.
  - rewrite upsert_batch_dom. set_solver.
  - rewrite upsert_batch_dom. set_solver.
  - intros id Hid. rewrite upsert_batch_lookup_ne; [now apply H3|].
    intros Hin. apply Hid, Hsub. now apply elem_of_list_to_set.
Qed.

Lemma local_ids_mono (w : world) (root_path : string) (l1 l2 : list string) :
  (forall p, p ∈ l1 -> p ∈ l2) -> local_ids w root_path l1 ⊆ local_ids w root_path l2.
Proof.
  unfold local_ids. intros H id.
  rewrite !elem_of_list_to_set, !list_elem_of_fmap.
  intros (it & -> & (p & Hp & Hit)%list_elem_of_omap).
  exists it. split; [reflexivity|]. apply list_elem_of_omap. exists p. auto.
Qed.

Lemma get_repo_files_no_error (w : world) (url : string) (files : list file_meta)
    (base error : option string) :
  get_repo_files w url = (Some files, base, error) -> error = None.
Proof.
  unfold get_repo_files. intros H. repeat case_match; simplify_eq; reflexivity.
Qed.

(** Whatever the outside does, a run only adds ids of [indexed_ids]. *)
Lemma run_only_adds (w : world) (path_or_url : string) (s : explorer)
    (env : nat -> bool) (t : nat) :
  only_adds (collection s) (indexed_ids w path_or_url)
    (collection (drive env t (index_directory w path_or_url s)).2).
Proof.
  apply (always_drive (fun s' => only_adds (collection s) (indexed_ids w path_or_url)
                                   (collection s'))).
  unfold index_directory, indexed_ids. fold (is_repository path_or_url).
  destruct (is_repository path_or_url).
  - apply (repo_always (only_adds (collection s) _)); [|apply only_adds_refl].
    intros files base error i s' E Hs'.
    pose proof (get_repo_files_no_error _ _ _ _ _ E) as ->.
    rewrite E in Hs' |- *. cbn [truthy] in Hs' |- *.
    apply only_adds_upsert_batch; [|exact Hs'].
    apply (repo_ids_mono w path_or_url base (take repo_batch_size (drop i files)) files).
    apply elem_of_take_drop.
  - destruct (os_path_isdir w path_or_url) eqn:Hd.
    + apply (local_always (only_adds (collection s) _)
               (fun p => p ∈ local_paths w path_or_url)); [| |apply only_adds_refl].
      * intros batch s' Hb Hs'. apply only_adds_upsert_batch; [|exact Hs'].
        apply (local_ids_mono w path_or_url batch (local_paths w path_or_url)).
        now apply Forall_forall.
      * now apply Forall_forall.
    + unfold _index_local_directory. rewrite Hd. cbn [negb].
      apply always_yield. intros b. apply always_stop. rewrite outside_collection.
      apply only_adds_refl.
Qed.

(** X8. An indexing run never removes anything: whatever the outside does
    (cancelled or not), every id stored before is still stored after, the
    count does not go down, the ids it adds are among those a run to the end
    adds, and every item whose id is not among them is exactly as it was.
    In particular items of files that have disappeared from the source stay
    in the index. *)
Theorem indexing_only_adds (w : world) (path_or_url : string) (s : explorer)
    (env : nat -> bool) (t : nat) :
  let s' := (drive env t (index_directory w path_or_url s)).2 in
  dom (collection s) ⊆ dom (collection s')
  /\ dom (collection s') ⊆ dom (collection s) ∪ indexed_ids w path_or_url
  /\ (size (collection s) <= size (collection s'))%nat
  /\ forall id, id ∉ indexed_ids w path_or_url ->
       collection s' !! id = collection s !! id.
Proof.
  cbv zeta. destruct (run_only_adds w path_or_url s env t) as (H1 & H2 & H3).
  repeat split; try assumption.
  rewrite <- !size_dom. now apply subseteq_size.
Qed.

Lemma prefix_local_not_repo (id : string) :
  String.prefix "local::" id = true -> String.prefix "repo::" id = false.
Proof. intros (b & ->)%prefix_elim. reflexivity. Qed.

Lemma indexed_ids_prefix (w : world) (path_or_url : string) (id : string) :
  id ∈ indexed_ids w path_or_url ->
  String.prefix (if is_repository path_or_url then "repo::" else "local::") id = true.
Proof.
  unfold indexed_ids. destruct (is_repository path_or_url).
  - destruct (get_repo_files w path_or_url) as [[[files|] [base|]] error];
      try (intros H; now apply not_elem_of_empty in H).
    destruct (truthy error); [intros H; now apply not_elem_of_empty in H|].
    intros (g & it & _ & Hit & <-)%repo_ids_elem.
    destruct (repo_item_id _ _ _ _ _ Hit) as (-> & _). apply prefix_app.
  - destruct (os_path_isdir w path_or_url); [|intros H; now apply not_elem_of_empty in H].
    unfold local_ids. rewrite elem_of_list_to_set, list_elem_of_fmap.
    intros (it & -> & (p & _ & Hit)%list_elem_of_omap).
    destruct (local_item_id _ _ _ _ Hit) as (-> & _). apply prefix_app.
Qed.

(** X9. Local and repository items never collide: a repository run,
    however it goes, leaves every item whose id starts with [local::] as it
    was, and a local run leaves every item whose id starts with [repo::] as
    it was. *)
Theorem local_and_repository_items_never_collide (w : world) (path_or_url : string)
    (s : explorer) (env : nat -> bool) (t : nat) (id : string) :
  String.prefix (if is_repository path_or_url then "local::" else "repo::") id = true ->
  collection (drive env t (index_directory w path_or_url s)).2 !! id = collection s !! id.
Proof.
  intros Hid. destruct (run_only_adds w path_or_url s env t) as (_ & _ & H3).
  apply H3. intros Hin%indexed_ids_prefix.
  destruct (is_repository path_or_url).
  - apply prefix_local_not_repo in Hid. congruence.
  - apply prefix_local_not_repo in Hin. congruence.
Qed.

End RunEffects.

(** ** The calls an indexing run makes on the store *)

Section RunCalls.
Import RepoLoader Explorer More.

Section AlwaysOnExplorer.
Variable I : explorer -> Prop.
Hypothesis I_outside : forall b s, I s -> I (outside b s).
Hypothesis I_count : forall s, I s -> I (logged CallCount s).

Lemma finish_always_on (s : explorer) : I s -> always I (finish s).
Proof.
  intros Hs. unfold finish. cbn [collection_count]. apply always_poll. intros b.
  destruct (is_cancelled _); apply always_yield; intros b'; apply always_stop; auto.
Qed.

Lemma batch_loop_always_on {A : Type} (process : list A -> explorer -> explorer)
    (batch_size : nat) (items : list A) (range : list nat) (s : explorer) :
  (forall i s, I s -> I (process (take batch_size (drop i items)) s)) ->
  I s -> always I (batch_loop process batch_size items range s).
Proof.
  intros Hstep. revert s. induction range as [|i range IH]; intros s Hs; cbn [batch_loop].
  - now apply finish_always_on.
  - apply always_poll. intros b. destruct (is_cancelled _).
    + apply finish_always_on. auto.
    + apply always_yield. intros b'. apply IH, Hstep. auto.
Qed.

Lemma local_always_on (w : world) (root_path : string) (s : explorer) :
  (forall batch s, (length batch <= local_batch_size)%nat -> I s ->
     I (process_local_batch w root_path batch s)) ->
  I s -> always I (_index_local_directory w root_path s).
Proof.
  intros Hstep Hs.
  assert (forall all_paths s, I s -> always I (local_after_scan w root_path all_paths s))
    as Hafter.
  { intros all_paths s1 H1. unfold local_after_scan. apply always_poll. intros b.
    destruct (is_cancelled _).
    - cbn [collection_count]. apply always_yield. intros b'. apply always_stop. auto.
    - apply always_yield. intros b'. unfold local_batches.
      apply batch_loop_always_on; [|auto].
      intros i s2 H2. apply Hstep; [|assumption]. rewrite length_take. lia. }
  assert (forall triples all_paths s, I s ->
            always I (local_scan w root_path triples all_paths s)) as Hscan.
  { induction triples as [|[[r d] f] triples IH]; intros all_paths s1 H1; cbn [local_scan].
    - now apply Hafter.
    - apply always_poll. intros b. destruct (is_cancelled _); [apply Hafter | apply IH]; auto. }
  unfold _index_local_directory. destruct (negb _).
  - apply always_yield. intros b. apply always_stop. auto.
  - apply always_yield. intros b. apply Hscan. auto.
Qed.

Lemma repo_always_on (w : world) (url : string) (s : explorer) :
  (forall base batch s, (length batch <= repo_batch_size)%nat -> I s ->
     I (process_repo_batch w url base batch s)) ->
  I s -> always I (_index_repository w url s).
Proof.
  intros Hstep Hs. unfold _index_repository. apply always_yield. intros b.
  destruct (get_repo_files w url) as [[files base] error] eqn:E.
  destruct (truthy error) eqn:Et.
  - apply always_yield. intros b'. apply always_stop. auto.
  - destruct (get_repo_files_listed w url files base error E Et)
      as (listed & base_url & -> & ->).
    cbn [default from_option id].
    apply always_yield. intros b'. unfold repo_batches.
    apply batch_loop_always_on; [|auto].
    intros i s2 H2. apply Hstep; [|assumption]. rewrite length_take. lia.
Qed.

End AlwaysOnExplorer.

Lemma length_omap_le {A B : Type} (f : A -> option B) (l : list A) :
  (length (omap f l) <= length l)%nat.
Proof.
  induction l as [|x l IH]; [reflexivity|]. cbn. destruct (f x); cbn; lia.
Qed.

Lemma upsert_batch_calls (bound : nat) (items : list (string * metadata * string))
    (s : explorer) :
  (length items <= bound)%nat ->
  exists new, calls (upsert_batch items s) = (calls s ++ new)%list
              /\ Forall (indexer_call bound) new.
Proof.
  intros Hlen. unfold upsert_batch. destruct items as [|it items].
  - exists []. split; [now rewrite List.app_nil_r | constructor].
  - eexists. split; [reflexivity|]. constructor; [|constructor].
    cbn [indexer_call]. rewrite !List.length_map. repeat split; [discriminate | exact Hlen].
Qed.

(** X10. On the store an indexing run only counts and upserts: whatever the
    outside does, the calls it adds to the log are [count()] calls and
    upserts, never a query, a get or a delete, and every upsert carries
    non-empty lists of documents, metadata and ids of the same length, at
    most one batch long (50 for a repository, 128 for a local directory). *)
Theorem indexing_calls_are_counts_and_upserts (w : world) (path_or_url : string)
    (s : explorer) (env : nat -> bool) (t : nat) :
  exists new,
    calls (drive env t (index_directory w path_or_url s)).2 = (calls s ++ new)%list
    /\ Forall (indexer_call
                 (if is_repository path_or_url then repo_batch_size else local_batch_size))
         new.
Proof.
  set (bound := if is_repository path_or_url then repo_batch_size else local_batch_size).
  set (I := fun s' : explorer =>
              exists new, calls s' = (calls s ++ new)%list /\ Forall (indexer_call bound) new).
  assert (forall b s', I s' -> I (outside b s')) as Hout.
  { intros b s' H. unfold I. now rewrite outside_calls. }
  assert (forall s', I s' -> I (logged CallCount s')) as Hcount.
  { intros s' (new & Hn & Hok). exists (new ++ [CallCount])%list. cbn [calls logged].
    split; [now rewrite Hn, <- List.app_assoc|]. apply Forall_app. split; [exact Hok|].
    now repeat constructor. }
  assert (forall items s', (length items <= bound)%nat -> I s' -> I (upsert_batch items s'))
    as Hup.
  { intros items s' Hlen (new & Hn & Hok).
    destruct (upsert_batch_calls bound items s' Hlen) as (new' & Hn' & Hok').
    exists (new ++ new')%list. split; [now rewrite Hn', Hn, <- List.app_assoc|].
    now apply Forall_app. }
  apply (always_drive I). unfold index_directory. fold (is_repository path_or_url).
  assert (I {| collection := collection s; is_cancelled := false; calls := calls s |}) as H0.
  { exists []. split; [cbn; now rewrite List.app_nil_r | constructor]. }
  subst bound. destruct (is_repository path_or_url).
  - apply repo_always_on; try assumption.
    intros base batch s' Hlen Hs'. apply Hup; [|exact Hs'].
    etransitivity; [apply length_omap_le | exact Hlen].
  - apply local_always_on; try assumption.
    intros batch s' Hlen Hs'. apply Hup; [|exact Hs'].
    etransitivity; [apply length_omap_le | exact Hlen].
Qed.

End RunCalls.

(** ** Batches *)

Section Batches.
Import Explorer.

(** X11. The batch loops slice the items without loss or overlap: for a
    positive batch size the slices [items[i:i+batch_size]] for [i] in
    [range(0, len(items), batch_size)], taken in order, make up the items
    again; no slice is empty, none is longer than the batch size, and there
    are [ceil(len(items) / batch_size)] of them (so none for no items). *)
Theorem batches_partition_the_items {A : Type} (batch_size : nat) (items : list A) :
  (0 < batch_size)%nat ->
  let batches :=
    List.map (fun i => take batch_size (drop i items))
      (range_step (length items) batch_size) in
  concat batches = items
  /\ Forall (fun batch => (0 < length batch <= batch_size)%nat) batches
  /\ length batches = ((length items + batch_size - 1) / batch_size)%nat
  /\ (items = [] -> batches = []).
Proof.
  intros Hb. cbv zeta. split; [now apply range_step_chunks|]. split; [|split].
  - unfold range_step. rewrite List.map_map. apply List.Forall_forall.
    intros batch (k & <- & Hk)%List.in_map_iff. apply List.in_seq in Hk.
    pose proof (Nat.Div0.mul_div_le (length items + batch_size - 1) batch_size) as Hdiv.
    rewrite length_take, length_drop.
    assert (k * batch_size < length items)%nat by nia.
    lia.
  - unfold range_step. now rewrite !List.length_map, List.length_seq.
  - intros ->. unfold range_step. cbn [length].
    rewrite Nat.add_0_l, Nat.div_small by lia. reflexivity.
Qed.

End Batches.

(** ** What the local scan reaches *)

Section LocalScan.
Import Explorer More.





End LocalScan.

(** ** Status, and search at the edges of the filter language *)

Section StatusAndSearch.
Import RepoLoader Explorer More.

Lemma clear_index_empties (s : explorer) : collection (clear_index s).2 = ∅.
Proof.
  unfold clear_index. cbn [collection_count].
  destruct (0 <? size (collection s))%nat eqn:E.
  - cbn [collection_get logged collection].
    destruct ((map_to_list (collection s)).*1) as [|i ids] eqn:Hids.
    + apply fmap_nil_inv, map_to_list_empty_iff in Hids. now cbn.
    + cbn [snd collection collection_delete]. rewrite <- Hids. apply delete_all_ids.
  - apply Nat.ltb_ge in E. cbn [snd collection logged].
    apply map_size_empty_inv. lia.
Qed.

(** X13. [get_status] leaves the collection alone and reports its size.
    After a run to the end on an empty index that size is the number of ids
    the run indexes, the number its last message gives when the run
    completes; after [clear_index] the status is that of an empty index. *)
Theorem status_follows_the_index (w : world) (path_or_url : string) (s : explorer) :
  collection s = ∅ ->
  let r := run_to_end w path_or_url s in
  collection (get_status r.2).2 = collection r.2
  /\ size (collection r.2) = size (indexed_ids w path_or_url)
  /\ (get_status r.2).1
     = (if (0 <? size (indexed_ids w path_or_url))%nat
        then "Persistent index loaded with "
               ++ PyStr.of_nat (size (indexed_ids w path_or_url)) ++ " items."
        else "Index is empty. Build the index to get started.")
  /\ r.1 = expected_stream w path_or_url (size (indexed_ids w path_or_url))
  /\ (get_status (clear_index r.2).2).1 = "Index is empty. Build the index to get started.".
Proof.
  intros Hs. cbv zeta.
  destruct (run_to_end_spec w path_or_url s) as (Hm & Hd & _).
  assert (size (collection (run_to_end w path_or_url s).2)
          = size (indexed_ids w path_or_url)) as Hsize.
  { rewrite <- size_dom, Hd, Hs, dom_empty_L. f_equal. set_solver. }
  repeat split.
  - unfold get_status. cbn [collection_count]. now destruct (_ <? _)%nat.
  - exact Hsize.
  - unfold get_status. cbn [collection_count]. rewrite Hsize. now destruct (_ <? _)%nat.
  - now rewrite <- Hsize.
  - unfold get_status. cbn [collection_count]. now rewrite clear_index_empties, map_size_empty.
Qed.

Lemma collect_ext (p1 p2 : option lit) (n : Z) (metadatas : list metadata)
    (distances : list float) :
  (forall meta, fails_path_filter p1 meta = fails_path_filter p2 meta) ->
  forall i output,
    collect p1 n metadatas i distances output = collect p2 n metadatas i distances output.
Proof.
  intros Hext. induction distances as [|dist distances IH]; intros i output; [reflexivity|].
  cbn [collect]. destruct (metadatas !! i) as [meta|]; [|reflexivity].
  rewrite Hext. destruct (fails_path_filter p2 meta) as [[]|]; try reflexivity; [apply IH|].
  destruct (_ >=? _)%Z; [reflexivity | apply IH].
Qed.

(** [search] depends on the filter only through the native filter and the
    verdicts of the post-filter. *)
Lemma search_ext (w : world) (query : string) (n : Z) (f1 f2 : option where_)
    (self : explorer) :
  (split_filters f1).1 = (split_filters f2).1 ->
  (forall meta, fails_path_filter (split_filters f1).2 meta
                = fails_path_filter (split_filters f2).2 meta) ->
  search w query n f1 self = search w query n f2 self.
Proof.
  intros Hnat Hext. destruct (decide (size (collection self) = 0%nat)) as [Hz|Hnz].
  - unfold search. cbn [collection_count]. now rewrite Hz.
  - rewrite !search_nonempty by assumption. cbv zeta. rewrite Hnat.
    destruct (ids0 _); [reflexivity|]. f_equal. now apply collect_ext.
Qed.

(** X14. A top-level ["relative_path" $contains] condition whose value is
    falsy (the empty string, 0 or False) is taken out of the native filter
    and then filters nothing: the search does exactly what it does for the
    filter without the [relative_path] entry. *)
Theorem falsy_substring_filters_nothing (w : world) (query : string) (n : Z)
    (g : where_) (v : lit) (self : explorer) :
  and_ g = None ->
  path_contains_of (fields g) = Some v ->
  (v = LStr EmptyString \/ v = LInt 0 \/ v = LBool false) ->
  (split_filters (Some g)).2 = Some v
  /\ search w query n (Some g) self
     = search w query n
         (Some {| and_ := None; fields := delete "relative_path" (fields g) |}) self.
Proof.
  intros Hand Hv Hfalsy.
  pose proof (split_filters_fields g Hand) as Hg. rewrite Hv in Hg.
  pose proof (split_filters_fields
                {| and_ := None; fields := delete "relative_path" (fields g) |} eq_refl) as Hg'.
  unfold path_contains_of in Hg'. cbn [fields] in Hg'. rewrite lookup_delete_eq in Hg'.
  split; [now rewrite Hg|].
  apply search_ext; rewrite Hg, Hg'; [reflexivity|].
  intros meta. cbn [snd]. destruct Hfalsy as [->|[->| ->]]; reflexivity.
Qed.

(** X15. A [$contains] value that is truthy but not a string (a non-zero
    number or True) makes the post-filter raise: as soon as the store
    returns a candidate, [search] ends in a TypeError instead of a result. *)
Theorem non_string_substring_raises (w : world) (query : string) (n : Z)
    (metadata_filters : option where_) (self : explorer) (v : lit) :
  size (collection self) <> 0%nat ->
  (split_filters metadata_filters).2 = Some v ->
  ((exists z, v = LInt z /\ z <> 0%Z) \/ v = LBool true) ->
  let native := (split_filters metadata_filters).1 in
  let params :=
    {| query_embeddings := [encode w query];
       n_results := Z.min (n * 5) (Z.of_nat (size (collection self)));
       where_filter := if where_nonempty native then Some native else None |} in
  let results := chroma_query w (collection self) params in
  ids0 results <> [] -> distances0 results <> [] -> metadatas0 results <> [] ->
  (search w query n metadata_filters self).1 = inr TypeError.
Proof.
  intros Hne Hv Htruthy. cbv zeta. intros Hids Hdists Hmetas.
  rewrite (search_nonempty w query n metadata_filters self Hne). cbv zeta. cbn [fst].
  destruct (ids0 _); [contradiction|].
  destruct (distances0 _) as [|dist distances]; [contradiction|].
  destruct (metadatas0 _) as [|meta metadatas]; [contradiction|].
  cbn [collect lookup list_lookup]. rewrite Hv.
  destruct Htruthy as [(z & -> & Hz)| ->]; cbn [fails_path_filter]; [|reflexivity].
  destruct (z =? 0)%Z eqn:E; [apply Z.eqb_eq in E; contradiction | reflexivity].
Qed.

End StatusAndSearch.

(** ** A listing of excluded files only *)

Section ExcludedListing.
Import RepoLoader Explorer More.

(** X16. When the GitHub listing is not empty but every listed file is
    excluded, [get_repo_files] gives the empty list with no error (an empty
    listing, by contrast, is an error), and the run to the end reports
    [Found 0 files to process.], runs no batch, and completes with the
    count it found, its only call on the store being that count. *)
Theorem listing_of_excluded_files_only (w : world) (url : string) (s : explorer)
    (files : list file_meta) (branch : string) :
  is_repository url = true ->
  PyStr.contains "huggingface.co" (PyStr.lower url) = false ->
  (2 <= length (PyStr.split "/" (strip_url url)))%nat ->
  (forall owner repo, _get_github_files w owner repo = (Some files, Some branch, None)) ->
  files <> [] ->
  (forall f, f ∈ files -> is_excluded (fm_path f) = true) ->
  (exists base, get_repo_files w url = (Some [], Some base, None))
  /\ run_to_end w url s
     = (["Fetching repository file list..."; found_report 0;
         complete_report (size (collection s))],
        logged CallCount
          {| collection := collection s; is_cancelled := false; calls := calls s |}).
Proof.
  intros Hrepo Hhf Hparts Hlist Hne Hex.
  assert (List.filter (fun f => negb (is_excluded (fm_path f))) files = []) as Hfilter.
  { destruct (List.filter _ files) as [|f l] eqn:E; [reflexivity|].
    assert (In f (List.filter (fun f => negb (is_excluded (fm_path f))) files)) as Hin
      by (rewrite E; now left).
    apply List.filter_In in Hin as [Hin Hf]. apply list_elem_of_In, Hex in Hin.
    rewrite Hin in Hf. discriminate. }
  assert (exists base, get_repo_files w url = (Some [], Some base, None)) as [base E].
  { unfold get_repo_files.
    destruct (_ <? 2)%nat eqn:Hlt; [apply Nat.ltb_lt in Hlt; lia|].
    rewrite Hhf, Hlist. cbn [truthy].
    destruct files as [|f0 files']; [contradiction|]. rewrite Hfilter. now eexists. }
  split; [now exists base|].
  unfold run_to_end, index_directory. fold (is_repository url). rewrite Hrepo.
  rewrite (repo_never w url
             {| collection := collection s; is_cancelled := false; calls := calls s |}
             0 [] base None E eq_refl eq_refl).
  reflexivity.
Qed.

End ExcludedListing.

(** ** Instances *)

Section Instances.
Import Explorer Examples.

(** A file named [.env] passes [is_excluded]: pathlib gives it no suffix. *)
Example dot_env_not_excluded :
  Pathlib.suffix ".env" = EmptyString /\ RepoLoader.is_excluded ".env" = false.
Proof. split; reflexivity. Qed.

(** The extension test is on pathlib's suffix, in either case; the pattern
    test is on the whole path. *)
Example exclusion_examples :
  Pathlib.suffix "assets/logo.PNG" = ".PNG"
  /\ RepoLoader.is_excluded "assets/logo.PNG" = true
  /\ RepoLoader.is_excluded "web/node_modules/left-pad/index.js" = true
  /\ RepoLoader.is_excluded "src/main.py" = false.
Proof. repeat split. Qed.

(** What a local run over [/proj] stores: nothing from [node_modules], but
    [.env] and [logo.png]. *)
Example proj_indexed_ids :
  (map_to_list (collection indexed)).*1
  = ["local::/proj/main.py"; "local::/proj/.env"; "local::/proj/logo.png"].
Proof. vm_compute. reflexivity. Qed.

(** The other two refusals of a fetched file: four bytes streamed against a
    cap of three, and a null byte among the first bytes. *)
Example refused_while_streaming :
  RepoLoader.stream 3 [] [Chunk [Byte.x61; Byte.x62]; Chunk [Byte.x63; Byte.x64]]
  = inr RepoLoader.TooLargeStreaming.
Proof. reflexivity. Qed.

Example refused_as_binary :
  RepoLoader.get_remote_file_content binary_world "https://example.org/blob"
    RepoLoader.default_max_size
  = inr RepoLoader.AppearsBinary.
Proof. reflexivity. Qed.

(** A negative distance gives a similarity above one. *)
Example similarity_not_clamped :
  similarity (result_of (-0.5)%float (meta_of "ab.txt")) = 1.5%float.
Proof. reflexivity. Qed.

Lemma search_empty_index_witness :
  size (collection fresh) = 0%nat
  /\ (search local_world "readme" 5 None fresh = (inl [], logged CallCount fresh)
      /\ calls (search local_world "readme" 5 None fresh).2 = (calls fresh ++ [CallCount])%list).
Proof.
  split; [reflexivity|].
  apply (search_empty_index local_world "readme" 5 None fresh). reflexivity.
Defined.



Lemma refused_remote_file_is_skipped_witness :
  is_repository tool_url = true
  /\ RepoLoader.get_repo_files repo_world tool_url = (Some [readme; big], Some tool_base, None)
  /\ requests_get repo_world (urljoin_quote repo_world tool_base (fm_path big))
     = Response (Some "2000000") []
  /\ RepoLoader.refused RepoLoader.default_max_size (Some "2000000") []
  /\ repo_item repo_world tool_url tool_base big = None
  /\ (forall env t,
        "repo::" ++ tool_url ++ "::" ++ fm_path big
          ∈ dom (collection (drive env t (index_directory repo_world tool_url fresh)).2) ->
        "repo::" ++ tool_url ++ "::" ++ fm_path big ∈ dom (collection fresh)).
Proof.
  assert (RepoLoader.refused RepoLoader.default_max_size (Some "2000000") []) as Href.
  { left. exists "2000000", 2000000%Z. repeat split. }
  split; [reflexivity|]. split; [reflexivity|]. split; [reflexivity|]. split; [exact Href|].
  destruct (refused_remote_file_is_skipped repo_world tool_url fresh [readme; big] tool_base
              None big (Some "2000000") [] eq_refl eq_refl eq_refl
              ltac:(right; left) eq_refl Href) as (Hnone & Habsent & _).
  split; [exact Hnone | exact Habsent].
Defined.

Lemma indexed_items_respect_exclusions_witness :
  collection (drive never 0 (index_directory local_world "/proj" fresh)).2
    !! "local::/proj/main.py" = Some main_py_item
  /\ exists entries entries',
       scandir_tree local_world "/proj" = Some entries
       /\ More.subdir entries [] entries'
       /\ ("main.py" ∈ filenames entries'
           \/ ("main.py" ∈ dirnames entries' /\ kept "main.py" = true))
       /\ full_path main_py_item.2 = os_path_join (path_of "/proj" []) "main.py".
Proof.
  assert (collection (drive never 0 (index_directory local_world "/proj" fresh)).2
            !! "local::/proj/main.py" = Some main_py_item) as H
    by (vm_compute; reflexivity).
  split; [exact H|].
  destruct (indexed_items_respect_exclusions local_world "/proj" fresh never 0
              "local::/proj/main.py" main_py_item H)
    as [Hold|[[Hrepo _]|[_ (entries & anc & entries' & leaf & Hscan & Hsub & _ & _
                              & Hleaf & Hpath & _ & Hread)]]].
  - discriminate Hold.
  - discriminate Hrepo.
  - injection Hscan as <-.
    destruct (Hread eq_refl [] "main.py" (List.Forall_nil _) eq_refl eq_refl)
      as (<- & <- & _).
    exists proj_tree, entries'. repeat split; assumption.
Defined.

(** *** Where the claims, read to the letter, fail *)

(** C1 as stated fails on a local run: [/proj/.env] and [/proj/logo.png] are
    in the index after [/proj] is indexed. *)
Lemma local_run_indexes_env_and_png :
  ~ (forall (w : world) (root_path : string) (s : explorer) (id : string)
            (v : string * metadata),
       collection (run_to_end w root_path s).2 !! id = Some v ->
       collection s !! id = None ->
       Pathlib.name (relative_path v.2) <> ".env")
  /\ ~ (forall (w : world) (root_path : string) (s : explorer) (id : string)
               (v : string * metadata),
          collection (run_to_end w root_path s).2 !! id = Some v ->
          collection s !! id = None ->
          PyStr.lower (Pathlib.suffix (relative_path v.2)) <> ".png").
Proof.
  split; intros H.
  - apply (H local_world "/proj" fresh "local::/proj/.env"
             ("Type: File. Path: .env. Tree: .env. Content Snippet: text",
              {| full_path := "/proj/.env"; relative_path := ".env"; is_dir := false;
                 size_bytes := Some 10%Z; modified_time := 0%float;
                 source_type := "local"; repo_url := None |})).
    + vm_compute. reflexivity.
    + reflexivity.
    + reflexivity.
  - apply (H local_world "/proj" fresh "local::/proj/logo.png"
             ("Type: File. Path: logo.png. Tree: logo.png. Content Snippet: text",
              {| full_path := "/proj/logo.png"; relative_path := "logo.png"; is_dir := false;
                 size_bytes := Some 10%Z; modified_time := 0%float;
                 source_type := "local"; repo_url := None |})).
    + vm_compute. reflexivity.
    + reflexivity.
    + reflexivity.
Qed.

(** C2 fails on the code when the [$and] list holds two contains-conditions.
    For the filter
    [{"$and": [{"relative_path": {"$contains": "a"}},
               {"relative_path": {"$contains": "b"}}]}]
    and a store that ranks [b.txt] before [ab.txt], [search] takes both
    conditions out of the native filter but applies the second only:
    [b.txt] is returned although its path does not contain ["a"]. So it is
    not true that every result's path contains the substring of every
    contains-condition of the filter. *)
Theorem earlier_contains_condition_not_enforced :
  and_ two_contains = Some [path_contains "a"; path_contains "b"]
  /\ split_filters (Some two_contains) = (empty_where, Some (LStr "b"))
  /\ (search search_world "notes" 5 (Some two_contains) indexed).1
     = inl [result_of 0.5%float (meta_of "b.txt");
            result_of (-0.5)%float (meta_of "ab.txt")]
  /\ path (result_of 0.5%float (meta_of "b.txt")) = "b.txt"
  /\ PyStr.contains "a" "b.txt" = false
  /\ ~ (forall (w : world) (query : string) (n : Z) (g : where_) (self : explorer)
               (conditions : list cond) (c : cond) (sub : string)
               (out : list search_result) (r : search_result),
          and_ g = Some conditions ->
          c ∈ conditions ->
          path_contains_of c = Some (LStr sub) ->
          (search w query n (Some g) self).1 = inl out ->
          r ∈ out ->
          PyStr.contains sub (path r) = true).
Proof.
  split; [reflexivity|]. split; [vm_compute; reflexivity|].
  split; [vm_compute; reflexivity|]. split; [reflexivity|]. split; [reflexivity|].
  intros H.
  specialize (H search_world "notes" 5%Z two_contains indexed
                [path_contains "a"; path_contains "b"] (path_contains "a") "a"
                [result_of 0.5%float (meta_of "b.txt");
                 result_of (-0.5)%float (meta_of "ab.txt")]
                (result_of 0.5%float (meta_of "b.txt"))
                eq_refl ltac:(constructor) eq_refl ltac:(vm_compute; reflexivity)
                ltac:(constructor)).
  discriminate H.
Qed.


End Instances.

(** ** Instances of the further properties *)

Section MoreInstances.
Import RepoLoader Explorer Examples More.

Lemma extension_rule_on_plain_names_witness :
  Pathlib.name "assets/logo.PNG" = "logo.PNG"
  /\ Pathlib.suffix "assets/logo.PNG" = ".PNG"
  /\ (PyStr.mem (PyStr.lower ".PNG") EXCLUDE_EXTENSIONS = true ->
      is_excluded "assets/logo.PNG" = true).
Proof.
  apply (extension_rule_on_plain_names "assets/" "logo" "PNG");
    solve [reflexivity | discriminate | right; now exists "assets"].
Defined.

Lemma dot_files_have_no_extension_witness :
  Pathlib.name "conf/.env" = ".env"
  /\ Pathlib.suffix "conf/.env" = EmptyString
  /\ is_excluded "conf/.env"
     = (PyStr.mem (PyStr.lower ".env") EXCLUDE_FILENAMES
        || existsb (fun pattern =>
                      PyStr.contains pattern (Pathlib.as_posix "conf/.env" ++ "/"))
             EXCLUDE_PATTERNS).
Proof.
  apply (dot_files_have_no_extension "conf/" "env");
    solve [reflexivity | discriminate | right; now exists "conf"].
Defined.

Lemma pattern_rule_is_a_substring_test_witness :
  In "build" ["__pycache__"; ".git"; "node_modules"; "dist"; "build"; ".vscode"; ".idea"]
  /\ is_excluded "rebuild/main.c" = true
  /\ is_excluded "src/rebuild" = true.
Proof.
  assert (In "build"
            ["__pycache__"; ".git"; "node_modules"; "dist"; "build"; ".vscode"; ".idea"])
    as Hin by (simpl; tauto).
  split; [exact Hin|].
  split.
  - exact (proj1 (proj2 (pattern_rule_is_a_substring_test "build" "re" "main.c" Hin))).
  - exact (proj2 (proj2 (pattern_rule_is_a_substring_test "build" "src/re" "" Hin))).
Defined.

Lemma get_remote_file_content_accepts_witness :
  requests_get repo_world (tool_base ++ "README.md")
  = Response (Some "2") [Chunk [Byte.x68; Byte.x69]]
  /\ (Z.of_nat (length (body_bytes [Chunk [Byte.x68; Byte.x69]])) <= 2)%Z
  /\ get_remote_file_content repo_world (tool_base ++ "README.md") 2 = inl "hi".
Proof.
  split; [reflexivity|]. split; [simpl; lia|].
  apply (get_remote_file_content_accepts repo_world (tool_base ++ "README.md") 2
           (Some "2") [Chunk [Byte.x68; Byte.x69]]).
  - reflexivity.
  - right; right. exists "2", 2%Z. repeat split. lia.
  - repeat constructor; discriminate.
  - simpl. lia.
  - intros Hin. apply list_elem_of_In in Hin. simpl in Hin.
    destruct Hin as [H|[H|[]]]; discriminate H.
Defined.

Lemma local_and_repository_items_never_collide_witness :
  String.prefix (if is_repository "/proj" then "local::" else "repo::")
    "repo::https://github.com/acme/tool::README.md" = true
  /\ collection (drive never 0 (index_directory local_world "/proj" fresh)).2
       !! "repo::https://github.com/acme/tool::README.md"
     = collection fresh !! "repo::https://github.com/acme/tool::README.md".
Proof.
  split; [reflexivity|].
  apply (local_and_repository_items_never_collide local_world "/proj" fresh never 0).
  reflexivity.
Defined.

Lemma batches_partition_the_items_witness :
  (0 < 2)%nat
  /\ concat (List.map (fun i => take 2 (drop i [1; 2; 3; 4; 5]%nat))
               (range_step (length [1; 2; 3; 4; 5]%nat) 2))
     = [1; 2; 3; 4; 5]%nat.
Proof.
  split; [lia|].
  exact (proj1 (batches_partition_the_items 2 [1; 2; 3; 4; 5]%nat ltac:(lia))).
Defined.


Lemma status_follows_the_index_witness :
  collection fresh = ∅
  /\ (get_status (run_to_end local_world "/proj" fresh).2).1
     = (if (0 <? size (indexed_ids local_world "/proj"))%nat
        then "Persistent index loaded with "
               ++ PyStr.of_nat (size (indexed_ids local_world "/proj")) ++ " items."
        else "Index is empty. Build the index to get started.").
Proof.
  split; [reflexivity|].
  exact (proj1 (proj2 (proj2 (status_follows_the_index local_world "/proj" fresh eq_refl)))).
Defined.

Lemma falsy_substring_filters_nothing_witness :
  and_ (contains_value (LStr EmptyString)) = None
  /\ path_contains_of (fields (contains_value (LStr EmptyString))) = Some (LStr EmptyString)
  /\ search search_world "notes" 2 (Some (contains_value (LStr EmptyString))) indexed
     = search search_world "notes" 2
         (Some {| and_ := None;
                  fields := delete "relative_path"
                              (fields (contains_value (LStr EmptyString))) |})
         indexed.
Proof.
  split; [reflexivity|]. split; [reflexivity|].
  exact (proj2 (falsy_substring_filters_nothing search_world "notes" 2
                  (contains_value (LStr EmptyString)) (LStr EmptyString) indexed
                  eq_refl eq_refl (or_introl eq_refl))).
Defined.

Lemma non_string_substring_raises_witness :
  size (collection indexed) <> 0%nat
  /\ (split_filters (Some (contains_value (LInt 5)))).2 = Some (LInt 5)
  /\ (search search_world "notes" 2 (Some (contains_value (LInt 5))) indexed).1
     = inr TypeError.
Proof.
  assert (size (collection indexed) <> 0%nat) as Hne by (vm_compute; discriminate).
  split; [exact Hne|]. split; [reflexivity|].
  apply (non_string_substring_raises search_world "notes" 2
           (Some (contains_value (LInt 5))) indexed (LInt 5) Hne eq_refl).
  - left. exists 5%Z. split; [reflexivity | lia].
  - discriminate.
  - discriminate.
  - discriminate.
Defined.

Lemma listing_of_excluded_files_only_witness :
  is_repository tool_url = true
  /\ (exists base, get_repo_files excluded_only_world tool_url = (Some [], Some base, None))
  /\ (run_to_end excluded_only_world tool_url fresh).1
     = ["Fetching repository file list..."; found_report 0;
        complete_report (size (collection fresh))].
Proof.
  split; [reflexivity|].
  destruct (listing_of_excluded_files_only excluded_only_world tool_url fresh
              [logo; {| fm_path := "poetry.lock"; fm_size := Some 4000%Z |}] "main"
              eq_refl eq_refl ltac:(vm_compute; lia) ltac:(reflexivity)
              ltac:(discriminate)
              ltac:(intros f Hf; apply list_elem_of_In in Hf; simpl in Hf;
                    destruct Hf as [<-|[<-|[]]]; reflexivity)) as [H1 H2].
  split; [exact H1 | now rewrite H2].
Defined.

End MoreInstances.
